(** * inkx-ui: the step tree and the ETA estimator

    A shallow embedding of [src/progress/step-node.ts] (the declarative
    step tree: [parseStepsDef], [flattenStepNodes], [getLeafNodes],
    [generateLabel], [isStepsDef], [isLabelTuple]) and of the ETA utilities
    exported by [src/utils/index.ts], with the properties the specification
    states about them. *)

From Stdlib Require Import List String Ascii Bool Arith NArith ZArith QArith Lia.
From Stdlib Require Import Qround DecimalString.
From Equations.Prop Require Import Equations Logic.
Import ListNotations.

Set Implicit Arguments.
Set Warnings "-register-all".
Local Close Scope Q_scope.
Local Open Scope string_scope.
Local Open Scope list_scope.

(** ** JavaScript values

    The parser inspects its input at run time ([typeof], [Array.isArray],
    [length], comparison with [null]), so the input is a JavaScript value and
    not only a well-typed [StepsDef].  Functions are opaque: only their
    identity matters, and [VFunction n] is the n-th one.  The program never looks
    at the value of a number, except for its truthiness; a number is
    represented by an integer (zero stands for the falsy numbers).  Arrays are
    dense.  An object holds its own enumerable string-keyed properties in the
    order in which [Object.entries] enumerates them. *)

Inductive Value : Type :=
| VUndefined
| VNull
| VBool (b : bool)
| VNumber (n : Z)
| VString (s : string)
| VFunction (f : nat)
| VArray (elems : list Value)
| VObject (props : list (string * Value)).

(** [typeof value === "function"] *)
Definition is_function (value : Value) : bool :=
  match value with VFunction _ => true | _ => false end.

(** [typeof value === "string"] *)
Definition is_string (value : Value) : bool :=
  match value with VString _ => true | _ => false end.

(** [Array.isArray(value)] *)
Definition Array_isArray (value : Value) : bool :=
  match value with VArray _ => true | _ => false end.

(** [typeof value === "object"]: objects, arrays and [null]. *)
Definition typeof_object (value : Value) : bool :=
  match value with VNull | VArray _ | VObject _ => true | _ => false end.

(** [value !== null] *)
Definition not_null (value : Value) : bool :=
  match value with VNull => false | _ => true end.

(** The truthiness test of [if (value)]. *)
Definition truthy (value : Value) : bool :=
  match value with
  | VUndefined | VNull => false
  | VBool b => b
  | VNumber n => negb (n =? 0)%Z
  | VString s => negb (String.eqb s "")
  | VFunction _ | VArray _ | VObject _ => true
  end.

(** ** Step nodes

    [work?] and [children?] are optional properties: [None] is a property that
    is absent.  [label] and [work] are declared [string] and function in
    TypeScript, but [parseStepsDef] stores what it finds in a two-element
    array without a test, so the model keeps them as values. *)

Inductive StepNode : Type := mkStepNode {
  label : Value;
  key : string;
  work : option Value;
  children : option (list StepNode);
  indent : nat
}.

(** [if (node.work)] *)
Definition has_work (node : StepNode) : bool :=
  match work node with Some w => truthy w | None => false end.

(** [if (node.children)]: an array is truthy, also when it is empty. *)
Definition has_children (node : StepNode) : bool :=
  match children node with Some _ => true | None => false end.

(** ** flattenStepNodes and getLeafNodes

    Both functions run a [for ... of] loop that pushes onto [result]: a left
    fold whose accumulator is [result], where [result.push(...xs)] appends
    [xs].  The recursion descends into a node's children, so the structural
    definition is the loop body, by recursion on the node; the function on
    sequences is the loop.  The lemmas [flattenStepNodes_unfold] and
    [getLeafNodes_unfold] below give the equations in the shape of the source. *)

Fixpoint flatten_body (result : list StepNode) (node : StepNode) : list StepNode :=
  let result := result ++ [node] in
  match children node with
  | Some c => result ++ fold_left flatten_body c []
  | None => result
  end.

Definition flattenStepNodes (nodes : list StepNode) : list StepNode :=
  fold_left flatten_body nodes [].

Fixpoint leaf_body (result : list StepNode) (node : StepNode) : list StepNode :=
  let result := if has_work node then result ++ [node] else result in
  match children node with
  | Some c => result ++ fold_left leaf_body c []
  | None => result
  end.

Definition getLeafNodes (nodes : list StepNode) : list StepNode :=
  fold_left leaf_body nodes [].

(** Depth-first pre-order in the specification's words: a node, then
    (recursively) its children, then the next sibling. *)
Fixpoint preorder_node (node : StepNode) : list StepNode :=
  node :: match children node with
          | Some c => flat_map preorder_node c
          | None => []
          end.

Definition preorder (nodes : list StepNode) : list StepNode :=
  flat_map preorder_node nodes.

(** The nodes of a sequence of trees that carry work, in pre-order. *)
Fixpoint leaves_node (node : StepNode) : list StepNode :=
  (if has_work node then [node] else []) ++
  match children node with
  | Some c => flat_map leaves_node c
  | None => []
  end.

(** ** Strings and the regular expressions of generateLabel

    A string is a sequence of ASCII characters (the identifiers that step
    keys are); the case maps and the character classes are the ASCII ones,
    and a code above 127 is left alone by all of them. *)

Local Open Scope char_scope.

Definition in_range (lo hi c : ascii) : bool :=
  Ascii.leb lo c && Ascii.leb c hi.

(** [[A-Z]] *)
Definition is_upper (c : ascii) : bool := in_range "A" "Z" c.

(** [[a-z]] *)
Definition is_lower (c : ascii) : bool := in_range "a" "z" c.

(** [\d] *)
Definition is_digit (c : ascii) : bool := in_range "0" "9" c.

(** [\s], and the characters [trim] removes: tab, line feed, vertical tab,
    form feed, carriage return and space. *)
Definition is_space (c : ascii) : bool :=
  in_range "009" "013" c || Ascii.eqb c " ".

(** [.] matches every character but a line terminator. *)
Definition is_dot (c : ascii) : bool :=
  negb (Ascii.eqb c "010" || Ascii.eqb c "013").

Definition char_toLowerCase (c : ascii) : ascii :=
  if is_upper c then ascii_of_nat (nat_of_ascii c + 32) else c.

Definition char_toUpperCase (c : ascii) : ascii :=
  if is_lower c then ascii_of_nat (nat_of_ascii c - 32) else c.

Definition toLowerCase (s : list ascii) : list ascii := map char_toLowerCase s.
Definition toUpperCase (s : list ascii) : list ascii := map char_toUpperCase s.

(** The longest prefix of [s] in the class [p], and what follows it. *)
Fixpoint span (p : ascii -> bool) (s : list ascii) : list ascii * list ascii :=
  match s with
  | [] => ([], [])
  | c :: s' =>
      if p c then let (m, rest) := span p s' in (c :: m, rest) else ([], s)
  end.

Fixpoint trimStart (s : list ascii) : list ascii :=
  match s with
  | [] => []
  | c :: s' => if is_space c then trimStart s' else s
  end.

Definition trimEnd (s : list ascii) : list ascii := rev (trimStart (rev s)).

(** [s.trim()] *)
Definition trim (s : list ascii) : list ascii := trimEnd (trimStart s).

(** The regular expressions the source uses: one character of a class
    ([[A-Z]], [.]) or a greedy non-empty run of a class ([\d+], [\s+]). *)
Inductive regex : Type :=
| Class (p : ascii -> bool)
| ClassPlus (p : ascii -> bool).

(** A match of [re] that starts at the first character of [s]: the matched
    text and the rest of [s]. *)
Definition exec_at (re : regex) (s : list ascii) : option (list ascii * list ascii) :=
  match s with
  | [] => None
  | c :: s' =>
      match re with
      | Class p => if p c then Some ([c], s') else None
      | ClassPlus p =>
          if p c then let (m, rest) := span p s' in Some (c :: m, rest) else None
      end
  end.

(** [s.replace(re, replacer)] with the [g] flag: scan from the left; where
    [re] matches, emit the replacement of the matched text and go on after the
    match, otherwise keep the character. *)
Equations? replace_all (re : regex) (replacer : list ascii -> list ascii)
  (s : list ascii) : list ascii by wf (List.length s) lt :=
  replace_all re replacer [] := [];
  replace_all re replacer (c :: s') with inspect (exec_at re (c :: s')) := {
    | exist _ (Some (m, rest)) Hexec => replacer m ++ replace_all re replacer rest;
    | exist _ None _ => c :: replace_all re replacer s' }.
Proof.
  assert (Hspan : forall p s, List.length (snd (span p s)) <= List.length s).
  { intros p s. induction s as [|a s IH]; simpl; [lia|].
    destruct (p a); simpl; [|lia].
    destruct (span p s); simpl in *; lia. }
  simpl in Hexec. destruct re as [p|p]; destruct (p c); try discriminate.
  - inversion Hexec; subst; lia.
  - specialize (Hspan p s'). destruct (span p s') as [m' rest'].
    inversion Hexec; subst. simpl in Hspan. lia.
Qed.

(** [s.replace(/^re/, replacer)] without the [g] flag: only a match at the
    start of [s] is replaced. *)
Definition replace_start (re : regex) (replacer : list ascii -> list ascii)
  (s : list ascii) : list ascii :=
  match exec_at re s with
  | Some (m, rest) => replacer m ++ rest
  | None => s
  end.

(** The replacement pattern [" $1"]: a space, then the captured text. *)
Definition space_then_group (m : list ascii) : list ascii := " " :: m.

(** ** generateLabel *)

Definition generateLabel_chars (fnName : list ascii) : list ascii :=
  let s := replace_all (Class is_upper) space_then_group fnName in
  let s := replace_all (ClassPlus is_digit) space_then_group s in
  let s := toLowerCase s in
  let s := trim s in
  let s := replace_all (ClassPlus is_space) (fun _ => [" "]) s in
  replace_start (Class is_dot) toUpperCase s.

Definition generateLabel (fnName : string) : string :=
  string_of_list_ascii (generateLabel_chars (list_ascii_of_string fnName)).

(** The five steps in the specification's words. *)

(** 1. Insert a space before every uppercase letter. *)
Definition space_before_uppercase (s : list ascii) : list ascii :=
  flat_map (fun c => if is_upper c then [" "; c] else [c]) s.

(** 2. Insert a space before every run of digits: before a digit that does
       not follow a digit. *)
Fixpoint space_before_digit_runs (after_digit : bool) (s : list ascii) : list ascii :=
  match s with
  | [] => []
  | c :: s' =>
      if is_digit c
      then (if after_digit then [c] else [" "; c]) ++ space_before_digit_runs true s'
      else c :: space_before_digit_runs false s'
  end.

(** 4. Trim ([trim], above) and collapse whitespace runs to single spaces:
       a whitespace character that does not follow one becomes a space, the
       others of the run vanish. *)
Fixpoint collapse_spaces (after_space : bool) (s : list ascii) : list ascii :=
  match s with
  | [] => []
  | c :: s' =>
      if is_space c
      then (if after_space then [] else [" "]) ++ collapse_spaces true s'
      else c :: collapse_spaces false s'
  end.

(** 5. Uppercase only the first character. *)
Definition capitalize_first (s : list ascii) : list ascii :=
  match s with
  | [] => []
  | c :: s' => char_toUpperCase c :: s'
  end.

(** The five steps in order; step 3 lowercases every character. *)
Definition generateLabel_steps (name : string) : string :=
  let s := list_ascii_of_string name in
  let s := space_before_uppercase s in
  let s := space_before_digit_runs false s in
  let s := map char_toLowerCase s in
  let s := collapse_spaces false (trim s) in
  string_of_list_ascii (capitalize_first s).

(** A string that is empty or starts with a character that is not
    whitespace. *)
Definition starts_clean (s : list ascii) : Prop :=
  match s with
  | [] => True
  | c :: _ => is_space c = false
  end.

Local Close Scope char_scope.

(** ** Objects, arrays and their entries *)

(** [String(i)] for an array index. *)
Definition index_key (i : nat) : string := NilEmpty.string_of_uint (Nat.to_uint i).

(** [value.length] and [value[i]] of an array. *)
Definition array_length (value : Value) : nat :=
  match value with VArray elems => List.length elems | _ => 0 end.

Definition array_get (value : Value) (i : nat) : Value :=
  match value with VArray elems => nth i elems VUndefined | _ => VUndefined end.

(** The entries of an array from index [i] on. *)
Fixpoint indexed_from (A : Type) (i : nat) (xs : list A) : list (string * A) :=
  match xs with
  | [] => []
  | x :: xs' => (index_key i, x) :: indexed_from (S i) xs'
  end.

(** [Object.entries(value)]: [None] is the TypeError it throws on
    [undefined] and [null].  A number, a boolean and a function have no own
    enumerable property; the entries of a string are its characters. *)
Definition Object_entries (value : Value) : option (list (string * Value)) :=
  match value with
  | VUndefined | VNull => None
  | VBool _ | VNumber _ | VFunction _ => Some []
  | VString s =>
      Some (indexed_from 0 (map (fun c => VString (String c "")) (list_ascii_of_string s)))
  | VArray elems => Some (indexed_from 0 elems)
  | VObject props => Some props
  end.

(** *** Property order of an object literal

    [Object.entries] follows the order of an ordinary object's own property
    keys: the keys that are array indices first, in ascending numeric order,
    then the other strings in the order in which they were created. *)

Fixpoint decimal_value (s : string) (acc : N) : option N :=
  match s with
  | EmptyString => Some acc
  | String c s' =>
      if is_digit c
      then decimal_value s' (10 * acc + (N_of_ascii c - 48))%N
      else None
  end.

(** An array index is a key that is the canonical decimal form of an integer
    below 2^32 - 1. *)
Definition array_index (key : string) : option N :=
  match key with
  | EmptyString => None
  | _ =>
      match decimal_value key 0%N with
      | Some n =>
          if String.eqb (NilZero.string_of_uint (N.to_uint n)) key && (n <? 4294967295)%N
          then Some n else None
      | None => None
      end
  end.

(** Assignment to a key the object already has: the value changes, the
    position does not. *)
Fixpoint update_property (props : list (string * Value)) (key : string) (value : Value)
  : option (list (string * Value)) :=
  match props with
  | [] => None
  | (k, v) :: props' =>
      if String.eqb k key then Some ((key, value) :: props')
      else option_map (cons (k, v)) (update_property props' key value)
  end.

(** A new array-index key goes before the first key that is not an array
    index or is a greater one. *)
Fixpoint insert_index (props : list (string * Value)) (key : string) (n : N) (value : Value)
  : list (string * Value) :=
  match props with
  | [] => [(key, value)]
  | (k, v) :: props' =>
      match array_index k with
      | Some m =>
          if (m <? n)%N then (k, v) :: insert_index props' key n value
          else (key, value) :: props
      | None => (key, value) :: props
      end
  end.

Definition define_property (props : list (string * Value)) (key : string) (value : Value)
  : list (string * Value) :=
  match update_property props key value with
  | Some props' => props'
  | None =>
      match array_index key with
      | Some n => insert_index props key n value
      | None => props ++ [(key, value)]
      end
  end.

Definition is_array_index (key : string) : bool :=
  match array_index key with Some _ => true | None => false end.

(** No key occurs twice. *)
Fixpoint distinct (keys : list string) : bool :=
  match keys with
  | [] => true
  | k :: keys' => negb (existsb (String.eqb k) keys') && distinct keys'
  end.

(** One property definition [key: value] of an object literal.  The key
    [__proto__] defines no property: it sets the prototype of the object
    (when the value is an object or [null]; otherwise it does nothing), and
    [Object.entries] does not enumerate what an object inherits. *)
Definition literal_property (props : list (string * Value)) (entry : string * Value)
  : list (string * Value) :=
  if String.eqb (fst entry) "__proto__" then props
  else define_property props (fst entry) (snd entry).

(** The own properties of the object that the literal
    [{ k1: v1, k2: v2, ... }] creates. *)
Definition object_literal (entries : list (string * Value)) : Value :=
  VObject (fold_left literal_property entries []).

(** ** parseStepsDef *)

(** A [for ... of] loop whose body may throw: [None] ends it. *)
Fixpoint for_of (A R : Type) (body : R -> A -> option R) (xs : list A) (result : R)
  : option R :=
  match xs with
  | [] => Some result
  | x :: xs' =>
      match body result x with
      | Some result' => for_of body xs' result'
      | None => None
      end
  end.

(** The same loop over the elements of an array, with their indices. *)
Fixpoint for_of_indexed (A R : Type) (body : R -> nat -> A -> option R)
  (i : nat) (xs : list A) (result : R) : option R :=
  match xs with
  | [] => Some result
  | x :: xs' =>
      match body result i x with
      | Some result' => for_of_indexed body (S i) xs' result'
      | None => None
      end
  end.

(** The body of the loop of [parseStepsDef]; [parse] is the function itself,
    for the recursive call. *)
Definition parse_entry (parse : Value -> nat -> option (list StepNode))
  (indent : nat) (nodes : list StepNode) (key : string) (value : Value)
  : option (list StepNode) :=
  if is_function value then
    Some (nodes ++ [mkStepNode (VString (generateLabel key)) key (Some value) None indent])
  else if Array_isArray value && Nat.eqb (array_length value) 2 then
    let label := array_get value 0 in
    let work := array_get value 1 in
    Some (nodes ++ [mkStepNode label key (Some work) None indent])
  else if typeof_object value && not_null value then
    match parse value (indent + 1) with
    | Some children =>
        Some (nodes ++ [mkStepNode (VString (generateLabel key)) key None (Some children) indent])
    | None => None
    end
  else Some nodes.

(** [parseStepsDef(def, indent)]: the loop over [Object.entries(def)], by
    recursion on [def].  [None] is the TypeError of [Object.entries] on
    [undefined] and [null]; a number, a boolean and a function have no entry;
    the entries of a string are one-character strings, for which the loop
    body takes no branch; the entries of an array are its elements under
    their indices.  The lemma [parseStepsDef_unfold] below states it as the
    loop over [Object_entries def]. *)
Fixpoint parseStepsDef (def : Value) (indent : nat) {struct def} : option (list StepNode) :=
  match def with
  | VUndefined | VNull => None
  | VBool _ | VNumber _ | VFunction _ => Some []
  | VString _ => Some []
  | VArray elems =>
      for_of_indexed
        (fun nodes i value => parse_entry parseStepsDef indent nodes (index_key i) value)
        0 elems []
  | VObject props =>
      for_of
        (fun nodes entry => parse_entry parseStepsDef indent nodes (fst entry) (snd entry))
        props []
  end.

(** [isStepsDef] and [isLabelTuple] of the source. *)
Definition isStepsDef (value : Value) : bool :=
  typeof_object value && not_null value && negb (Array_isArray value)
  && negb (is_function value).

Definition isLabelTuple (value : Value) : bool :=
  Array_isArray value && Nat.eqb (array_length value) 2
  && is_string (array_get value 0) && is_function (array_get value 1).

(** The three shapes of a step value that the specification recognizes. *)
Definition recognized (value : Value) : bool :=
  is_function value || isLabelTuple value || isStepsDef value.

(** The values of the TypeScript types [StepValue] and [StepsDef]. *)
Fixpoint StepValue_typed (value : Value) : bool :=
  match value with
  | VFunction _ => true
  | VArray [VString _; VFunction _] => true
  | VObject props => forallb (fun entry => StepValue_typed (snd entry)) props
  | _ => false
  end.

Definition StepsDef_typed (def : Value) : bool :=
  match def with
  | VObject _ => StepValue_typed def
  | _ => false
  end.

(** The test of each of the three branches of the loop body fails. *)
Definition no_branch_taken (value : Value) : bool :=
  negb (is_function value)
  && negb (Array_isArray value && Nat.eqb (array_length value) 2)
  && negb (typeof_object value && not_null value).

(** [undefined], [null], booleans, numbers and strings. *)
Definition is_primitive (value : Value) : bool :=
  match value with
  | VUndefined | VNull | VBool _ | VNumber _ | VString _ => true
  | VFunction _ | VArray _ | VObject _ => false
  end.

(** The node that [parseStepsDef] makes at [indent] for an entry of one of
    the three recognized shapes. *)
Definition node_of_entry (indent : nat) (entry : string * Value) (node : StepNode) : Prop :=
  let (key, value) := entry in
  if is_function value then
    node = mkStepNode (VString (generateLabel key)) key (Some value) None indent
  else if isLabelTuple value then
    node = mkStepNode (array_get value 0) key (Some (array_get value 1)) None indent
  else
    exists children,
      parseStepsDef value (indent + 1) = Some children /\
      node = mkStepNode (VString (generateLabel key)) key None (Some children) indent.

(** A node has exactly one of [work] and [children]. *)
Definition exactly_one (node : StepNode) : bool :=
  xorb (has_work node) (has_children node).

(** [p] holds of a node and of every node below it. *)
Fixpoint every_node (p : StepNode -> bool) (node : StepNode) : bool :=
  p node &&
  match children node with
  | Some c => forallb (every_node p) c
  | None => true
  end.

(** A node made for an entry is a group exactly when the entry is a nested
    mapping, and a leaf otherwise. *)
Definition shape_of_entry (entry : string * Value) (node : StepNode) : Prop :=
  key node = fst entry /\
  if isStepsDef (snd entry)
  then work node = None /\ has_children node = true
  else has_work node = true /\ children node = None.

(** ** The ETA utilities

    [src/utils/index.ts] re-exports [calculateETA], [formatETA], [getETA],
    [createETATracker] and [DEFAULT_ETA_BUFFER_SIZE] from [./eta.js], a file
    that is not among the sources; the definitions of this part follow the
    specification and the repository's test [tests/eta.test.ts].  Numbers are
    exact rationals. *)

(** Modelled from the spec: the type [ETASample] of the missing
    [src/utils/eta.ts], one observation of the progress [value] at a
    [time]. *)
Record ETASample : Type := mkETASample { time : Q; value : Q }.

Definition oldest (buffer : list ETASample) : ETASample :=
  hd (mkETASample 0 0) buffer.

Definition newest (buffer : list ETASample) : ETASample :=
  last buffer (mkETASample 0 0).

(** The elapsed time and the progress between the first and the last
    sample. *)
Definition delta_time (buffer : list ETASample) : Q :=
  (time (newest buffer) - time (oldest buffer))%Q.

Definition delta_value (buffer : list ETASample) : Q :=
  (value (newest buffer) - value (oldest buffer))%Q.

(** [Math.max(a, b)] *)
Definition Math_max (a b : Q) : Q := if Qle_bool a b then b else a.

(** Modelled from the spec: [calculateETA] of the missing [src/utils/eta.ts].
    Section 4.1 gives the algorithm: at least two samples, the first and the
    last sample only, absent when no time elapsed or no progress was made,
    else the remaining work [max(0, total - current)] over the rate.  The
    timestamps are milliseconds ([record] takes [time = now]) and the result
    is in seconds: the test "calculates ETA correctly" has 10 items between
    the timestamps 1000 and 2000, 90 remaining, and expects 9 (section 8:
    "rate 10/sec, 90 remaining"). *)
Definition calculateETA (buffer : list ETASample) (current total : Q) : option Q :=
  if (List.length buffer <? 2)%nat then None
  else
    let elapsed := (delta_time buffer / 1000)%Q in
    let progress := delta_value buffer in
    if Qle_bool elapsed 0 || Qle_bool progress 0 then None
    else
      let rate := (progress / elapsed)%Q in
      let remaining := Math_max 0 (total - current) in
      Some (remaining / rate)%Q.

(** The quotient that the specification's formula gives, with the elapsed
    time in the unit of the timestamps. *)
Definition quotient_in_timestamp_unit (buffer : list ETASample) (current total : Q) : Q :=
  (Math_max 0 (total - current) / (delta_value buffer / delta_time buffer))%Q.

(** Modelled from the spec: the argument of [formatETA] of the missing
    [src/utils/eta.ts] is [null] or a number: not-a-number, an infinity, or a
    finite number, which is a rational here (fractions and negative numbers
    included). *)
Inductive ETANumber : Type :=
| NaN
| Infinity (negative : bool)
| Finite (x : Q).

Definition decimal (n : N) : string := NilZero.string_of_uint (N.to_uint n).

(** Zero-padding to 2 digits. *)
Definition pad2 (n : N) : string :=
  if (n <? 10)%N then "0" ++ decimal n else decimal n.

(** The decimal form of an integer, with its sign when it is negative. *)
Definition decimal_Z (z : Z) : string := NilZero.string_of_int (Z.to_int z).

(** Modelled from the spec: [formatETA] of the missing [src/utils/eta.ts],
    the four rules of section 4.1 in their order, on every number.  The
    fields are those of the whole seconds of the value (its floor): the
    seconds field is the remainder modulo 60, which has two digits also for a
    negative value, and the minutes of [M:SS] carry the sign. *)
Definition formatETA (seconds : option ETANumber) : string :=
  match seconds with
  | None | Some NaN | Some (Infinity _) => "--:--"
  | Some (Finite x) =>
      if negb (Qle_bool x 86400) then ">1d"
      else
        let whole := Qfloor x in
        let sec := Z.to_N (whole mod 60) in
        if Qle_bool 3600 x
        then decimal_Z (whole / 3600) ++ ":"
             ++ pad2 (Z.to_N ((whole mod 3600) / 60)) ++ ":" ++ pad2 sec
        else decimal_Z (whole / 60) ++ ":" ++ pad2 sec
  end.

(** Modelled from the spec: the default capacity of the sample buffer. *)
Definition DEFAULT_ETA_BUFFER_SIZE : nat := 10.

(** Modelled from the spec: the tracker that [createETATracker] of the
    missing [src/utils/eta.ts] makes: a capacity and a buffer, oldest sample
    first.  The capacity is a count. *)
Record ETATracker : Type := mkETATracker {
  bufferSize : nat;
  buffer : list ETASample
}.

(** Modelled from the spec: [createETATracker(bufferSize = 10)] of the
    missing [src/utils/eta.ts]; [None] is the omitted argument. *)
Definition createETATracker (size : option nat) : ETATracker :=
  mkETATracker
    (match size with Some n => n | None => DEFAULT_ETA_BUFFER_SIZE end) [].

(** Modelled from the spec: [record(value, time)] of the tracker: append the
    sample; when the capacity is exceeded, evict the oldest one. *)
Definition record (tracker : ETATracker) (sample : ETASample) : ETATracker :=
  let appended := buffer tracker ++ [sample] in
  mkETATracker (bufferSize tracker)
    (if (bufferSize tracker <? List.length appended)%nat then tl appended else appended).

(** Modelled from the spec: [reset()] of the tracker empties the buffer. *)
Definition reset (tracker : ETATracker) : ETATracker :=
  mkETATracker (bufferSize tracker) [].

(** Modelled from the spec: [getBuffer()] of the tracker returns the buffer. *)
Definition getBuffer (tracker : ETATracker) : list ETASample := buffer tracker.

(** The operations that change a tracker, and a sequence of them. *)
Inductive TrackerOp : Type :=
| OpRecord (sample : ETASample)
| OpReset.

Definition apply_op (tracker : ETATracker) (op : TrackerOp) : ETATracker :=
  match op with
  | OpRecord sample => record tracker sample
  | OpReset => reset tracker
  end.

(** The [n] last elements of a sequence, in their order. *)
Definition last_n (A : Type) (n : nat) (xs : list A) : list A :=
  skipn (List.length xs - n) xs.

(** ** More about the step tree *)

(** The loop body of [parseStepsDef] takes one of its three branches. *)
Definition branch_taken (value : Value) : bool := negb (no_branch_taken value).

(** A node at [level] whose descendants are each one level deeper than their
    parent. *)
Fixpoint indented_from (node : StepNode) (level : nat) {struct node} : bool :=
  Nat.eqb (indent node) level &&
  match children node with
  | Some c => forallb (fun child => indented_from child (S level)) c
  | None => true
  end.

Definition label_is (text : string) (value : Value) : bool :=
  match value with
  | VString s => String.eqb s text
  | _ => false
  end.

(** The two forms of node that the parser builds: a leaf has the property
    [work] and no [children]; a group has the property [children], no [work],
    and the label generated from its key. *)
Definition leaf_or_group (node : StepNode) : bool :=
  match children node, work node with
  | None, Some _ => true
  | Some _, None => label_is (generateLabel (key node)) (label node)
  | _, _ => false
  end.

(** The callables that a definition of the type [StepsDef] holds, in the
    order in which [Object.entries] enumerates each mapping, nested groups in
    place. *)
Fixpoint declared_work (value : Value) : list Value :=
  match value with
  | VFunction _ => [value]
  | VArray [_; w] => [w]
  | VObject props => flat_map (fun entry => declared_work (snd entry)) props
  | _ => []
  end.

(** The number of nodes of a sequence of trees. *)
Fixpoint node_count (node : StepNode) : nat :=
  S (match children node with
     | Some c => list_sum (map node_count c)
     | None => 0
     end).

(** ** The form of a label *)

Local Open Scope char_scope.

(** Whitespace occurs only as single spaces between other characters:
    [after_space] tells that the previous character is a space (or that the
    string starts here), and the string does not end after a space. *)
Fixpoint well_spaced (after_space : bool) (s : list ascii) : bool :=
  match s with
  | [] => negb after_space
  | c :: s' =>
      if is_space c
      then Ascii.eqb c " " && negb after_space && well_spaced true s'
      else well_spaced false s'
  end.

Definition normal_spacing (s : list ascii) : bool :=
  match s with
  | [] => true
  | _ => well_spaced true s
  end.

(** The first character is not a lowercase letter and no later character is
    an uppercase letter. *)
Definition capital_then_lower (s : list ascii) : bool :=
  match s with
  | [] => true
  | c :: s' => negb (is_lower c) && forallb (fun a => negb (is_upper a)) s'
  end.

(** Every digit follows a digit or a whitespace character; [ok] tells whether
    a digit may come first. *)
Fixpoint digits_spaced (ok : bool) (s : list ascii) : bool :=
  match s with
  | [] => true
  | c :: s' => (if is_digit c then ok else true) && digits_spaced (is_digit c || is_space c) s'
  end.

(** The strings that have the form of a label. *)
Definition label_form (s : list ascii) : bool :=
  normal_spacing s && capital_then_lower s && digits_spaced true s.

(** A word: one or more lowercase letters. *)
Definition is_word (w : list ascii) : bool :=
  negb (Nat.eqb (List.length w) 0) && forallb is_lower w.

(** The camelCase name made of a first word and of the words that follow it,
    each with its first letter in uppercase; and the words as a sentence. *)
Definition camelCase (first : list ascii) (others : list (list ascii)) : list ascii :=
  first ++ flat_map capitalize_first others.

Definition sentence (first : list ascii) (others : list (list ascii)) : list ascii :=
  capitalize_first first ++ flat_map (cons " ") others.

(** The last character is not whitespace. *)
Definition ends_clean (s : list ascii) : bool := negb (is_space (last s "x")).

Local Close Scope char_scope.

(** ** createProgressCallback

    [createProgressCallback] (in the wrapper part of [src/utils/index.ts])
    returns a callback and a completion function that share two variables,
    [lastPhase] and [started], and act on a progress bar and on the output
    stream.  The progress bar, the stream and [isTTY] are outside the model:
    a call on one of them is an effect, and a run yields the sequence of its
    effects.  [isTty] is the value that [isTTY(stream)] had at creation. *)

Module ProgressCallback.

Record ProgressInfo : Type := mkProgressInfo {
  phase : option string;
  current : Z;
  total : Z
}.

Record Options : Type := mkOptions {
  format : option string;
  phases : option (list (string * string));
  clearOnComplete : option bool
}.

Inductive Effect : Type :=
| NewProgressBar (format : string) (phases : list (string * string)) (hideCursor : bool)
| WriteCursorHide
| WriteCursorShow
| WriteNewline
| BarStart (current total : Z)
| BarSetPhase (phase : string) (current total : Z)
| BarUpdate (current : Z)
| BarStop (clear : option bool).

Record State : Type := mkState {
  lastPhase : option string;
  started : bool
}.

(** [options.format ?? (options.phases ? ... : ...)] *)
Definition default_format (options : Options) : string :=
  match format options with
  | Some f => f
  | None =>
      match phases options with
      | Some _ => ":phase [:bar] :current/:total"
      | None => "[:bar] :current/:total :percent"
      end
  end.

(** The body of [createProgressCallback] up to the two closures. *)
Definition createProgressCallback (isTty : bool) (options : Options)
  : State * list Effect :=
  (mkState None false,
   [NewProgressBar (default_format options)
      (match phases options with Some p => p | None => [] end) true]
   ++ (if isTty then [WriteCursorHide] else [])).

(** [info.phase && info.phase !== lastPhase] *)
Definition phase_changes (st : State) (info : ProgressInfo) : option string :=
  match phase info with
  | Some p =>
      if negb (String.eqb p "")
         && negb (match lastPhase st with Some q => String.eqb p q | None => false end)
      then Some p else None
  | None => None
  end.

(** [if (!started) { bar.start(info.current, info.total); started = true }] *)
Definition start_once (st : State) (info : ProgressInfo) : list Effect :=
  if started st then [] else [BarStart (current info) (total info)].

Definition callback (isTty : bool) (st : State) (info : ProgressInfo)
  : State * list Effect :=
  match phase_changes st info with
  | Some p =>
      (mkState (Some p) true,
       (match lastPhase st with
        | Some _ => if isTty then [WriteNewline] else []
        | None => []
        end)
       ++ start_once st info
       ++ [BarSetPhase p (current info) (total info)])
  | None =>
      (mkState (lastPhase st) true,
       start_once st info ++ [BarUpdate (current info)])
  end.

Definition complete (isTty : bool) (options : Options) (st : State) : list Effect :=
  (if started st then [BarStop (clearOnComplete options)] else [])
  ++ (if isTty then [WriteCursorShow] else []).

(** The callback called on each element of [infos] in turn. *)
Fixpoint callbacks (isTty : bool) (st : State) (infos : list ProgressInfo)
  : State * list Effect :=
  match infos with
  | [] => (st, [])
  | info :: infos' =>
      let (st1, effects1) := callback isTty st info in
      let (st2, effects2) := callbacks isTty st1 infos' in
      (st2, effects1 ++ effects2)
  end.

(** A whole use: creation, the calls of the callback, completion. *)
Definition session (isTty : bool) (options : Options) (infos : list ProgressInfo)
  : list Effect :=
  let (st0, effects0) := createProgressCallback isTty options in
  let (st1, effects1) := callbacks isTty st0 infos in
  effects0 ++ effects1 ++ complete isTty options st1.

Definition is_bar_call (e : Effect) : bool :=
  match e with
  | BarStart _ _ | BarSetPhase _ _ _ | BarUpdate _ | BarStop _ => true
  | _ => false
  end.

Definition is_progress (e : Effect) : bool :=
  match e with
  | BarSetPhase _ _ _ | BarUpdate _ => true
  | _ => false
  end.

Definition is_write (e : Effect) : bool :=
  match e with
  | WriteCursorHide | WriteCursorShow | WriteNewline => true
  | _ => false
  end.

Definition is_newline (e : Effect) : bool :=
  match e with WriteNewline => true | _ => false end.

Definition is_setPhase (e : Effect) : bool :=
  match e with BarSetPhase _ _ _ => true | _ => false end.

(** The phases passed to [bar.setPhase], in order. *)
Fixpoint announced (effects : list Effect) : list string :=
  match effects with
  | [] => []
  | BarSetPhase p _ _ :: effects' => p :: announced effects'
  | _ :: effects' => announced effects'
  end.

(** No element equals the one before it; [previous] is the one before the
    first. *)
Fixpoint no_repeat (previous : option string) (ps : list string) : bool :=
  match ps with
  | [] => true
  | p :: ps' =>
      negb (match previous with Some q => String.eqb p q | None => false end)
      && no_repeat (Some p) ps'
  end.

(** Where the newlines are: every newline is written on a terminal, after a
    first phase was announced, and is followed at once by the call of
    [bar.setPhase]; and on a terminal every call of [bar.setPhase] but the
    first comes right after a newline.  [announced_before] tells whether a
    phase was announced earlier. *)
Fixpoint newlines_placed (isTty announced_before : bool) (effects : list Effect) : bool :=
  match effects with
  | [] => true
  | WriteNewline :: effects' =>
      match effects' with
      | BarSetPhase _ _ _ :: effects'' =>
          isTty && announced_before && newlines_placed isTty true effects''
      | _ => false
      end
  | BarSetPhase _ _ _ :: effects' =>
      negb (isTty && announced_before) && newlines_placed isTty true effects'
  | _ :: effects' => newlines_placed isTty announced_before effects'
  end.

End ProgressCallback.

(** ** The five steps of a label, in the specification's words

    The steps are written here on their own, without the regular expressions
    and the string methods of the program: the letters, the digits and the
    whitespace characters are listed, and the case maps are tables. *)

Module FiveSteps.

Local Open Scope char_scope.

Definition uppercase_letters : list ascii :=
  list_ascii_of_string "ABCDEFGHIJKLMNOPQRSTUVWXYZ".

Definition lowercase_letters : list ascii :=
  list_ascii_of_string "abcdefghijklmnopqrstuvwxyz".

Definition digits : list ascii := list_ascii_of_string "0123456789".

(** Tab, line feed, vertical tab, form feed, carriage return, space. *)
Definition whitespace : list ascii := ["009"; "010"; "011"; "012"; "013"; " "].

Definition among (cs : list ascii) (c : ascii) : bool := existsb (Ascii.eqb c) cs.

(** The character at the place of [c] in [to] when [c] occurs in [from]. *)
Fixpoint translate (from to : list ascii) (c : ascii) : ascii :=
  match from, to with
  | f :: from', t :: to' => if Ascii.eqb c f then t else translate from' to' c
  | _, _ => c
  end.

Definition lowercase (c : ascii) : ascii := translate uppercase_letters lowercase_letters c.
Definition uppercase (c : ascii) : ascii := translate lowercase_letters uppercase_letters c.

(** 1. Insert a space before every uppercase letter. *)
Definition space_before_uppercase (s : list ascii) : list ascii :=
  flat_map (fun c => if among uppercase_letters c then [" "; c] else [c]) s.

(** 2. Insert a space before every run of digits. *)
Fixpoint space_before_digit_runs (in_run : bool) (s : list ascii) : list ascii :=
  match s with
  | [] => []
  | c :: s' =>
      if among digits c
      then (if in_run then [c] else [" "; c]) ++ space_before_digit_runs true s'
      else c :: space_before_digit_runs false s'
  end.

(** 3. Lowercase everything. *)
Definition lowercase_all (s : list ascii) : list ascii := map lowercase s.

(** 4. Trim leading and trailing whitespace. *)
Fixpoint drop_leading (s : list ascii) : list ascii :=
  match s with
  | [] => []
  | c :: s' => if among whitespace c then drop_leading s' else s
  end.

Fixpoint drop_trailing (s : list ascii) : list ascii :=
  match s with
  | [] => []
  | c :: s' =>
      match drop_trailing s' with
      | [] => if among whitespace c then [] else [c]
      | kept => c :: kept
      end
  end.

(** ... and collapse internal whitespace runs to single spaces. *)
Fixpoint collapse_runs (in_run : bool) (s : list ascii) : list ascii :=
  match s with
  | [] => []
  | c :: s' =>
      if among whitespace c
      then (if in_run then [] else [" "]) ++ collapse_runs true s'
      else c :: collapse_runs false s'
  end.

(** 5. Uppercase only the first character. *)
Definition uppercase_first (s : list ascii) : list ascii :=
  match s with
  | [] => []
  | c :: s' => uppercase c :: s'
  end.

Definition label_chars (name : list ascii) : list ascii :=
  uppercase_first
    (collapse_runs false
       (drop_trailing
          (drop_leading
             (lowercase_all
                (space_before_digit_runs false (space_before_uppercase name)))))).

Definition label (name : string) : string :=
  string_of_list_ascii (label_chars (list_ascii_of_string name)).

End FiveSteps.

(** The names of ASCII characters. *)
Definition is_ascii (c : ascii) : bool := Nat.ltb (nat_of_ascii c) 128.

Definition is_ascii_name (name : string) : bool :=
  forallb is_ascii (list_ascii_of_string name).

(** ** generateLabel on names with characters above ASCII

    The same program on names whose characters are below U+0100, a character
    being its code: there [toLowerCase] also maps the capitals U+00C0 to
    U+00DE (U+00D7 is the multiplication sign), [\s] and [trim] also take the
    no-break space U+00A0, and [toUpperCase] maps the small letters U+00E0 to
    U+00FE (U+00F7 is the division sign), the sharp s to "SS", and the micro
    sign and the y with diaeresis to characters above U+00FF, for which the
    result is [None] here.  The classes [[A-Z]] and [\d] are the ASCII ones. *)

Module Latin1.

Local Open Scope char_scope.

Definition code (c : ascii) : nat := nat_of_ascii c.

Definition between (lo hi n : nat) : bool := Nat.leb lo n && Nat.leb n hi.

Definition char_toLowerCase (c : ascii) : ascii :=
  if between 65 90 (code c) || (between 192 222 (code c) && negb (Nat.eqb (code c) 215))
  then ascii_of_nat (code c + 32) else c.

Definition char_toUpperCase (c : ascii) : option (list ascii) :=
  if between 97 122 (code c) || (between 224 254 (code c) && negb (Nat.eqb (code c) 247))
  then Some [ascii_of_nat (code c - 32)]
  else if Nat.eqb (code c) 223 then Some ["S"; "S"]
  else if Nat.eqb (code c) 181 || Nat.eqb (code c) 255 then None
  else Some [c].

Fixpoint toUpperCase (s : list ascii) : option (list ascii) :=
  match s with
  | [] => Some []
  | c :: s' =>
      match char_toUpperCase c, toUpperCase s' with
      | Some u, Some r => Some (u ++ r)
      | _, _ => None
      end
  end.

Definition is_whitespace (c : ascii) : bool := is_space c || Nat.eqb (code c) 160.

Fixpoint trimStart (s : list ascii) : list ascii :=
  match s with
  | [] => []
  | c :: s' => if is_whitespace c then trimStart s' else s
  end.

Definition trimEnd (s : list ascii) : list ascii := rev (trimStart (rev s)).

Definition trim (s : list ascii) : list ascii := trimEnd (trimStart s).

Definition generateLabel (fnName : list ascii) : option (list ascii) :=
  let s := replace_all (Class is_upper) space_then_group fnName in
  let s := replace_all (ClassPlus is_digit) space_then_group s in
  let s := map char_toLowerCase s in
  let s := trim s in
  let s := replace_all (ClassPlus is_whitespace) (fun _ => [" "]) s in
  match exec_at (Class is_dot) s with
  | Some (m, rest) => option_map (fun u => u ++ rest) (toUpperCase m)
  | None => Some s
  end.

(** The composition as the specification words it, where an uppercase letter
    is any letter that [toLowerCase] changes. *)
Definition is_uppercase_letter (c : ascii) : bool :=
  negb (Ascii.eqb (char_toLowerCase c) c).

Fixpoint collapse_runs (in_run : bool) (s : list ascii) : list ascii :=
  match s with
  | [] => []
  | c :: s' =>
      if is_whitespace c
      then (if in_run then [] else [" "]) ++ collapse_runs true s'
      else c :: collapse_runs false s'
  end.

Definition five_steps_as_worded (name : list ascii) : option (list ascii) :=
  let s := flat_map (fun c => if is_uppercase_letter c then [" "; c] else [c]) name in
  let s := space_before_digit_runs false s in
  let s := map char_toLowerCase s in
  let s := collapse_runs false (trim s) in
  match s with
  | [] => Some []
  | c :: rest => option_map (fun u => u ++ rest) (char_toUpperCase c)
  end.

End Latin1.

(** ** Induction on trees *)

Unset Implicit Arguments.

Section StepNode_induction.
Variable P : StepNode -> Prop.
Variable Q : list StepNode -> Prop.
Hypothesis P_leaf : forall l k w i, P (mkStepNode l k w None i).
Hypothesis P_group : forall l k w c i, Q c -> P (mkStepNode l k w (Some c) i).
Hypothesis Q_nil : Q [].
Hypothesis Q_cons : forall n ns, P n -> Q ns -> Q (n :: ns).

Fixpoint StepNode_nested_ind (n : StepNode) : P n :=
  match n with
  | mkStepNode l k w None i => P_leaf l k w i
  | mkStepNode l k w (Some c) i =>
      P_group l k w c i
        ((fix nodes_ind (ns : list StepNode) : Q ns :=
            match ns with
            | [] => Q_nil
            | n' :: ns' => Q_cons n' ns' (StepNode_nested_ind n') (nodes_ind ns')
            end) c)
  end.

Lemma StepNodes_nested_ind (ns : list StepNode) : Q ns.
Proof.
  induction ns as [|n ns IH]; [exact Q_nil|].
  apply Q_cons; [apply StepNode_nested_ind | exact IH].
Qed.
End StepNode_induction.

Section Value_induction.
Variable P : Value -> Prop.
Hypothesis P_undefined : P VUndefined.
Hypothesis P_null : P VNull.
Hypothesis P_bool : forall b, P (VBool b).
Hypothesis P_number : forall n, P (VNumber n).
Hypothesis P_string : forall s, P (VString s).
Hypothesis P_function : forall f, P (VFunction f).
Hypothesis P_array : forall elems, Forall P elems -> P (VArray elems).
Hypothesis P_object :
  forall props, Forall (fun entry => P (snd entry)) props -> P (VObject props).

Fixpoint Value_nested_ind (value : Value) : P value :=
  match value with
  | VUndefined => P_undefined
  | VNull => P_null
  | VBool b => P_bool b
  | VNumber n => P_number n
  | VString s => P_string s
  | VFunction f => P_function f
  | VArray elems =>
      P_array elems
        ((fix elems_ind (vs : list Value) : Forall P vs :=
            match vs with
            | [] => Forall_nil P
            | v :: vs' => Forall_cons v (Value_nested_ind v) (elems_ind vs')
            end) elems)
  | VObject props =>
      P_object props
        ((fix props_ind (es : list (string * Value))
            : Forall (fun entry => P (snd entry)) es :=
            match es with
            | [] => Forall_nil _
            | e :: es' =>
                Forall_cons e (Value_nested_ind (snd e)) (props_ind es')
            end) props)
  end.
End Value_induction.

(** ** Properties of the traversals *)

Lemma fold_left_pointwise (A B : Type) (f g : A -> B -> A) :
  (forall a b, f a b = g a b) ->
  forall l a, fold_left f l a = fold_left g l a.
Proof.
  intros Hfg l. induction l as [|b l IH]; intros a; simpl; [reflexivity|].
  rewrite Hfg. apply IH.
Qed.

Lemma flattenStepNodes_unfold (nodes : list StepNode) :
  flattenStepNodes nodes =
  fold_left
    (fun result node =>
       let result := result ++ [node] in
       match children node with
       | Some c => result ++ flattenStepNodes c
       | None => result
       end)
    nodes [].
Proof.
  unfold flattenStepNodes at 1. apply fold_left_pointwise.
  intros result [l k w [c|] i]; reflexivity.
Qed.

Lemma getLeafNodes_unfold (nodes : list StepNode) :
  getLeafNodes nodes =
  fold_left
    (fun result node =>
       let result := if has_work node then result ++ [node] else result in
       match children node with
       | Some c => result ++ getLeafNodes c
       | None => result
       end)
    nodes [].
Proof.
  unfold getLeafNodes at 1. apply fold_left_pointwise.
  intros result [l k w [c|] i]; reflexivity.
Qed.

Lemma flatten_loop (nodes : list StepNode) :
  forall result, fold_left flatten_body nodes result = result ++ preorder nodes.
Proof.
  pattern nodes.
  apply StepNodes_nested_ind with
    (P := fun n => forall result, flatten_body result n = result ++ preorder_node n).
  - intros l k w i result. simpl. reflexivity.
  - intros l k w c i IH result. simpl. rewrite IH. simpl.
    rewrite <- app_assoc. reflexivity.
  - intros result. simpl. symmetry. apply app_nil_r.
  - intros n ns Hn Hns result. simpl. rewrite Hn, Hns.
    unfold preorder. simpl. rewrite <- app_assoc. reflexivity.
Qed.

Lemma flattenStepNodes_preorder (nodes : list StepNode) :
  flattenStepNodes nodes = preorder nodes.
Proof. unfold flattenStepNodes. rewrite flatten_loop. reflexivity. Qed.

Lemma leaf_loop (nodes : list StepNode) :
  forall result,
    fold_left leaf_body nodes result = result ++ flat_map leaves_node nodes.
Proof.
  pattern nodes.
  apply StepNodes_nested_ind with
    (P := fun n => forall result, leaf_body result n = result ++ leaves_node n).
  - intros l k w i result. unfold leaf_body, leaves_node. simpl.
    destruct (has_work _); rewrite ?app_nil_r; reflexivity.
  - intros l k w c i IH result. simpl. rewrite IH. simpl.
    destruct (has_work _); simpl; rewrite <- ?app_assoc; reflexivity.
  - intros result. simpl. symmetry. apply app_nil_r.
  - intros n ns Hn Hns result. simpl. rewrite Hn, Hns.
    simpl. rewrite <- app_assoc. reflexivity.
Qed.

Lemma filter_flat_map (A B : Type) (p : B -> bool) (f : A -> list B) (l : list A) :
  filter p (flat_map f l) = flat_map (fun a => filter p (f a)) l.
Proof.
  induction l as [|a l IH]; simpl; [reflexivity|].
  rewrite filter_app, IH. reflexivity.
Qed.

Lemma leaves_filter_preorder (nodes : list StepNode) :
  flat_map leaves_node nodes = filter has_work (preorder nodes).
Proof.
  pattern nodes.
  apply StepNodes_nested_ind with
    (P := fun n => leaves_node n = filter has_work (preorder_node n)).
  - intros l k w i. unfold leaves_node. simpl.
    destruct (has_work _); reflexivity.
  - intros l k w c i IH. cbn [leaves_node preorder_node children].
    fold (preorder c). rewrite IH. cbn [filter app].
    destruct (has_work _); reflexivity.
  - reflexivity.
  - intros n ns Hn Hns. unfold preorder in *. simpl.
    rewrite filter_app, Hn, Hns. reflexivity.
Qed.

(** C8: [flattenStepNodes] is the depth-first pre-order traversal: the empty
    sequence gives nothing; a node is emitted first, then the flattening of
    its children, then the flattening of the siblings that follow it, groups
    included; so the result is the pre-order listing of the trees.  One group
    with two leaf children gives exactly group, first child, second child. *)
Theorem flattenStepNodes_depth_first_preorder :
  (forall nodes, flattenStepNodes nodes = preorder nodes) /\
  flattenStepNodes [] = [] /\
  (forall node rest,
      flattenStepNodes (node :: rest) =
      node :: match children node with
              | Some c => flattenStepNodes c
              | None => []
              end ++ flattenStepNodes rest) /\
  (forall gl gk gw gi l1 k1 w1 i1 l2 k2 w2 i2,
      let child1 := mkStepNode l1 k1 w1 None i1 in
      let child2 := mkStepNode l2 k2 w2 None i2 in
      let group := mkStepNode gl gk gw (Some [child1; child2]) gi in
      flattenStepNodes [group] = [group; child1; child2]).
Proof.
  split; [exact flattenStepNodes_preorder|].
  split; [reflexivity|].
  split; [|reflexivity].
  intros [l k w [c|] i] rest; cbn [children];
    rewrite !flattenStepNodes_preorder; reflexivity.
Qed.

(** C9: [getLeafNodes] is the subsequence of [flattenStepNodes] made of the
    nodes that carry work: the same traversal, groups traversed but not
    emitted.  One group with two leaf children gives exactly the two
    children. *)
Theorem getLeafNodes_filters_flattenStepNodes :
  (forall nodes,
      getLeafNodes nodes = filter has_work (flattenStepNodes nodes)) /\
  (forall gl gk gi l1 k1 f1 i1 l2 k2 f2 i2,
      let child1 := mkStepNode l1 k1 (Some (VFunction f1)) None i1 in
      let child2 := mkStepNode l2 k2 (Some (VFunction f2)) None i2 in
      let group := mkStepNode gl gk None (Some [child1; child2]) gi in
      getLeafNodes [group] = [child1; child2]).
Proof.
  split; [|reflexivity].
  intros nodes. unfold getLeafNodes. rewrite leaf_loop. simpl.
  rewrite leaves_filter_preorder, flattenStepNodes_preorder. reflexivity.
Qed.

(** ** Properties of generateLabel *)

Lemma replace_all_cons (re : regex) (f : list ascii -> list ascii) c s :
  replace_all re f (c :: s) =
  match exec_at re (c :: s) with
  | Some (m, rest) => f m ++ replace_all re f rest
  | None => c :: replace_all re f s
  end.
Proof.
  simp replace_all.
  destruct (inspect (exec_at re (c :: s))) as [[[m rest]|] H];
    simp replace_all; rewrite H; reflexivity.
Qed.


Lemma replace_all_class (p : ascii -> bool) (f : list ascii -> list ascii) s :
  replace_all (Class p) f s = flat_map (fun c => if p c then f [c] else [c]) s.
Proof.
  induction s as [|c s IH]; [reflexivity|].
  rewrite replace_all_cons. simpl. destruct (p c); rewrite IH; reflexivity.
Qed.

Lemma span_shorter (p : ascii -> bool) s :
  List.length (snd (span p s)) <= List.length s.
Proof.
  induction s as [|c s IH]; simpl; [lia|].
  destruct (p c); simpl; [|lia].
  destruct (span p s); simpl in *; lia.
Qed.

Lemma digit_run_continues s :
  space_before_digit_runs true s =
  fst (span is_digit s) ++ space_before_digit_runs false (snd (span is_digit s)).
Proof.
  induction s as [|c s IH]; [reflexivity|].
  simpl. destruct (is_digit c) eqn:Hc.
  - rewrite IH. destruct (span is_digit s); reflexivity.
  - simpl. rewrite Hc. reflexivity.
Qed.

Lemma space_run_continues s :
  collapse_spaces true s = collapse_spaces false (snd (span is_space s)).
Proof.
  induction s as [|c s IH]; [reflexivity|].
  simpl. destruct (is_space c) eqn:Hc.
  - rewrite IH. destruct (span is_space s); reflexivity.
  - simpl. rewrite Hc. reflexivity.
Qed.

(** Facts about strings are proved by induction on the length, since a match
    of a run consumes several characters at once. *)
Lemma by_length (P : list ascii -> Prop) :
  (forall s, (forall t, List.length t < List.length s -> P t) -> P s) ->
  forall s, P s.
Proof.
  intros step s. remember (List.length s) as n eqn:Hn.
  revert s Hn. induction n as [n IH] using lt_wf_ind.
  intros s ->. apply step. intros t Ht. exact (IH _ Ht t eq_refl).
Qed.

Lemma replace_all_digit_runs s :
  replace_all (ClassPlus is_digit) space_then_group s =
  space_before_digit_runs false s.
Proof.
  induction s as [s IH] using by_length.
  destruct s as [|c s]; [reflexivity|].
  rewrite replace_all_cons. simpl. destruct (is_digit c) eqn:Hc.
  - rewrite digit_run_continues. pose proof (span_shorter is_digit s) as Hlen.
    destruct (span is_digit s) as [m rest]. simpl in *.
    rewrite IH by lia. unfold space_then_group. reflexivity.
  - rewrite IH by (simpl; lia). reflexivity.
Qed.

Lemma replace_all_space_runs s :
  replace_all (ClassPlus is_space) (fun _ => [" "%char]) s =
  collapse_spaces false s.
Proof.
  induction s as [s IH] using by_length.
  destruct s as [|c s]; [reflexivity|].
  rewrite replace_all_cons. simpl. destruct (is_space c) eqn:Hc.
  - rewrite space_run_continues. pose proof (span_shorter is_space s) as Hlen.
    destruct (span is_space s) as [m rest]. simpl in *.
    rewrite IH by lia. reflexivity.
  - rewrite IH by (simpl; lia). reflexivity.
Qed.

Lemma trimStart_clean s : starts_clean (trimStart s).
Proof.
  induction s as [|c s IH]; simpl; [exact I|].
  destruct (is_space c) eqn:Hc; [exact IH | exact Hc].
Qed.

Lemma trimStart_snoc s c :
  is_space c = false -> trimStart (s ++ [c]) = trimStart s ++ [c].
Proof.
  intros Hc. induction s as [|a s IH]; simpl.
  - rewrite Hc. reflexivity.
  - destruct (is_space a); [exact IH | reflexivity].
Qed.

Lemma trimEnd_clean s : starts_clean s -> starts_clean (trimEnd s).
Proof.
  destruct s as [|c s]; simpl; [intros _; exact I|].
  intros Hc. unfold trimEnd. simpl.
  rewrite trimStart_snoc by exact Hc. rewrite rev_app_distr. exact Hc.
Qed.

Lemma trim_clean s : starts_clean (trim s).
Proof. apply trimEnd_clean, trimStart_clean. Qed.

Lemma collapse_clean s :
  starts_clean s -> starts_clean (collapse_spaces false s).
Proof.
  destruct s as [|c s]; simpl; [intros _; exact I|].
  intros Hc. rewrite Hc. exact Hc.
Qed.

Lemma space_of_line_terminator c : is_dot c = false -> is_space c = true.
Proof.
  unfold is_dot, is_space. intros H. apply negb_false_iff in H.
  apply orb_true_iff in H. destruct H as [H|H];
    apply Ascii.eqb_eq in H; subst; reflexivity.
Qed.

Lemma replace_start_capitalizes s :
  starts_clean s -> replace_start (Class is_dot) toUpperCase s = capitalize_first s.
Proof.
  destruct s as [|c s]; [reflexivity|].
  simpl. intros Hc. unfold replace_start. simpl.
  destruct (is_dot c) eqn:Hdot; [reflexivity|].
  apply space_of_line_terminator in Hdot. congruence.
Qed.

Lemma generateLabel_refines (name : string) :
  generateLabel name = generateLabel_steps name.
Proof.
  unfold generateLabel, generateLabel_steps, generateLabel_chars. f_equal.
  rewrite replace_all_class, replace_all_digit_runs, replace_all_space_runs.
  apply replace_start_capitalizes, collapse_clean, trim_clean.
Qed.

(** ** Properties of parseStepsDef *)

Lemma for_of_app (A R : Type) (body : R -> A -> option R) xs ys result :
  for_of body (xs ++ ys) result =
  match for_of body xs result with
  | Some result' => for_of body ys result'
  | None => None
  end.
Proof.
  revert result. induction xs as [|x xs IH]; intros result; simpl; [reflexivity|].
  destruct (body result x); [apply IH | reflexivity].
Qed.

Lemma for_of_indexed_entries (A R : Type) (body : R -> nat -> A -> option R)
  (key_body : R -> string * A -> option R) :
  (forall result i x, key_body result (index_key i, x) = body result i x) ->
  forall xs i result,
    for_of_indexed body i xs result = for_of key_body (indexed_from i xs) result.
Proof.
  intros Hkey xs. induction xs as [|x xs IH]; intros i result; simpl; [reflexivity|].
  rewrite Hkey. destruct (body result i x); [apply IH | reflexivity].
Qed.

(** A loop whose body keeps an invariant and does not throw returns, and the
    invariant holds of what it returns. *)
Lemma for_of_invariant (A R : Type) (Inv : R -> Prop) (body : R -> A -> option R) xs :
  Forall (fun x => forall r, Inv r -> exists r', body r x = Some r' /\ Inv r') xs ->
  forall result, Inv result ->
    exists result', for_of body xs result = Some result' /\ Inv result'.
Proof.
  induction 1 as [|x xs Hx _ IH]; intros result Hinv; simpl.
  - exists result. split; [reflexivity | exact Hinv].
  - destruct (Hx result Hinv) as (r' & -> & Hinv'). apply IH, Hinv'.
Qed.

(** A loop whose body pushes one element per entry returns the elements in
    the order of the entries. *)
Lemma for_of_collect (A B : Type) (rel : A -> B -> Prop)
  (body : list B -> A -> option (list B)) xs :
  Forall (fun x => forall r, exists y, body r x = Some (r ++ [y]) /\ rel x y) xs ->
  forall result,
    exists ys, for_of body xs result = Some (result ++ ys) /\ Forall2 rel xs ys.
Proof.
  induction 1 as [|x xs Hx _ IH]; intros result; simpl.
  - exists []. rewrite app_nil_r. split; [reflexivity | constructor].
  - destruct (Hx result) as (y & -> & Hy).
    destruct (IH (result ++ [y])) as (ys & -> & Hys).
    exists (y :: ys). rewrite <- app_assoc. split; [reflexivity|].
    constructor; assumption.
Qed.

(** The equation of [parseStepsDef] in the shape of the source: the loop over
    [Object.entries(def)]. *)
Lemma parseStepsDef_unfold (def : Value) (indent : nat) :
  parseStepsDef def indent =
  match Object_entries def with
  | Some entries =>
      for_of
        (fun nodes entry =>
           parse_entry parseStepsDef indent nodes (fst entry) (snd entry))
        entries []
  | None => None
  end.
Proof.
  destruct def as [| |b|n|s|f|elems|props]; try reflexivity.
  - cbn [parseStepsDef Object_entries].
    generalize (list_ascii_of_string s) 0 (@nil StepNode).
    intros cs. induction cs as [|c cs IH]; intros i nodes; simpl; [reflexivity|].
    apply IH.
  - cbn [parseStepsDef Object_entries]. apply for_of_indexed_entries.
    reflexivity.
Qed.

Lemma parse_entry_function parse indent nodes key f :
  parse_entry parse indent nodes key (VFunction f) =
  Some (nodes ++ [mkStepNode (VString (generateLabel key)) key (Some (VFunction f)) None indent]).
Proof. reflexivity. Qed.

Lemma parse_entry_pair parse indent nodes key first second :
  parse_entry parse indent nodes key (VArray [first; second]) =
  Some (nodes ++ [mkStepNode first key (Some second) None indent]).
Proof. reflexivity. Qed.

Lemma parse_entry_skip parse indent nodes key value :
  no_branch_taken value = true ->
  parse_entry parse indent nodes key value = Some nodes.
Proof.
  unfold no_branch_taken, parse_entry. intros H.
  apply andb_true_iff in H. destruct H as [H H3].
  apply andb_true_iff in H. destruct H as [H1 H2].
  apply negb_true_iff in H1, H2, H3. rewrite H1, H2, H3. reflexivity.
Qed.

Lemma parse_entry_returns parse indent nodes key value :
  (typeof_object value && not_null value = true ->
   exists children, parse value (indent + 1) = Some children) ->
  exists nodes', parse_entry parse indent nodes key value = Some nodes'.
Proof.
  intros Hrec. unfold parse_entry. destruct (is_function value); [eauto|].
  destruct (Array_isArray value && _); [eauto|].
  destruct (typeof_object value && not_null value); [|eauto].
  destruct (Hrec eq_refl) as [c ->]. eauto.
Qed.

(** An object and an array are parsed without a TypeError. *)
Lemma parseStepsDef_returns (def : Value) :
  forall indent,
    typeof_object def && not_null def = true ->
    exists nodes, parseStepsDef def indent = Some nodes.
Proof.
  induction def as [| |b|n|s|f|elems IH|props IH] using Value_nested_ind;
    intros indent Hobj; try discriminate; clear Hobj.
  - cbn [parseStepsDef]. generalize 0 (@nil StepNode).
    induction IH as [|v vs Hv _ IHvs]; intros i nodes; simpl; [eauto|].
    destruct (parse_entry_returns parseStepsDef indent nodes (index_key i) v
                (Hv (indent + 1))) as [nodes' ->].
    apply IHvs.
  - cbn [parseStepsDef]. generalize (@nil StepNode).
    induction IH as [|[k v] es Hv _ IHes]; intros nodes; simpl; [eauto|].
    destruct (parse_entry_returns parseStepsDef indent nodes k v
                (Hv (indent + 1))) as [nodes' ->].
    apply IHes.
Qed.

Lemma no_branch_taken_primitive (value : Value) :
  no_branch_taken value = is_primitive value.
Proof.
  destruct value as [| |b|n|s|f|elems|props]; try reflexivity.
  unfold no_branch_taken. simpl. destruct (Nat.eqb _ 2); reflexivity.
Qed.

Lemma primitive_not_recognized (value : Value) :
  is_primitive value = true -> recognized value = false.
Proof. destruct value; simpl; intros H; try reflexivity; discriminate. Qed.

Lemma parseStepsDef_group_of_array (key : string) (elems : list Value) (indent : nat) :
  List.length elems <> 2 ->
  exists children,
    parseStepsDef (VArray elems) (indent + 1) = Some children /\
    parseStepsDef (VObject [(key, VArray elems)]) indent =
    Some [mkStepNode (VString (generateLabel key)) key None (Some children) indent].
Proof.
  intros Hlen.
  destruct (parseStepsDef_returns (VArray elems) (indent + 1) eq_refl) as [c Hc].
  exists c. split; [exact Hc|].
  cbn [parseStepsDef for_of fst snd]. unfold parse_entry.
  cbn [is_function Array_isArray array_length typeof_object not_null andb].
  apply Nat.eqb_neq in Hlen. rewrite Hlen, Hc. reflexivity.
Qed.

(** C2, as the code has it: an entry whose value passes none of the three
    tests of the loop (it is [undefined], [null], a boolean, a number or a
    string, none of the recognized shapes) adds no node: the result is the
    one of the definition without that entry.  An array is never skipped: one
    of two elements makes a leaf of its first and second element, whatever
    they are, and one of another length makes a group. *)
Theorem parseStepsDef_skips_primitive_entry
  (before after : list (string * Value)) (key : string) (value : Value) (indent : nat)
  (first second : Value) (elems : list Value) :
  no_branch_taken value = true ->
  is_primitive value = true /\
  recognized value = false /\
  parseStepsDef (VObject (before ++ (key, value) :: after)) indent =
  parseStepsDef (VObject (before ++ after)) indent /\
  parseStepsDef (VObject [(key, VArray [first; second])]) indent =
  Some [mkStepNode first key (Some second) None indent] /\
  (List.length elems <> 2 ->
   exists children,
     parseStepsDef (VArray elems) (indent + 1) = Some children /\
     parseStepsDef (VObject [(key, VArray elems)]) indent =
     Some [mkStepNode (VString (generateLabel key)) key None (Some children) indent]).
Proof.
  intros Hskip.
  assert (Hprim : is_primitive value = true)
    by (rewrite <- no_branch_taken_primitive; exact Hskip).
  split; [exact Hprim|].
  split; [exact (primitive_not_recognized value Hprim)|].
  split; [|split; [reflexivity | apply parseStepsDef_group_of_array]].
  cbn [parseStepsDef]. rewrite !for_of_app.
  destruct (for_of _ before []) as [nodes|]; [|reflexivity].
  simpl. rewrite parse_entry_skip by exact Hskip. reflexivity.
Qed.

Lemma parseStepsDef_skips_primitive_entry_witness :
  no_branch_taken (VNumber 3) = true /\
  parseStepsDef
    (VObject ([("load", VFunction 0)] ++ ("retries", VNumber 3) :: [("save", VFunction 1)])) 0 =
  parseStepsDef (VObject ([("load", VFunction 0)] ++ [("save", VFunction 1)])) 0.
Proof.
  split; [reflexivity|].
  apply (parseStepsDef_skips_primitive_entry
           [("load", VFunction 0)] [("save", VFunction 1)] "retries" (VNumber 3) 0
           VNull VNull []).
  reflexivity.
Defined.

(** C2, as stated, fails on arrays: an array whose length is not 2 is taken
    for a nested group, and a two-element array makes a leaf whatever its
    elements are. *)
Lemma parseStepsDef_unrecognized_array_makes_node :
  (recognized (VArray []) = false /\
   parseStepsDef (VObject [("a", VArray [])]) 0 =
   Some [mkStepNode (VString "A") "a" None (Some []) 0]) /\
  (recognized (VArray [VNumber 1; VFunction 0]) = false /\
   parseStepsDef (VObject [("a", VArray [VNumber 1; VFunction 0])]) 0 =
   Some [mkStepNode (VNumber 1) "a" (Some (VFunction 0)) None 0]) /\
  (recognized (VArray [VString "x"; VNumber 5]) = false /\
   parseStepsDef (VObject [("a", VArray [VString "x"; VNumber 5])]) 0 =
   Some [mkStepNode (VString "x") "a" (Some (VNumber 5)) None 0]).
Proof. repeat split; vm_compute; reflexivity. Qed.

Lemma update_property_new props key value :
  ~ In key (map fst props) -> update_property props key value = None.
Proof.
  induction props as [|[k v] props IH]; simpl; intros Hnew; [reflexivity|].
  destruct (String.eqb k key) eqn:Hk.
  - apply String.eqb_eq in Hk. tauto.
  - rewrite IH by tauto. reflexivity.
Qed.

Lemma define_properties_append entries :
  NoDup (map fst entries) ->
  Forall (fun entry => array_index (fst entry) = None) entries ->
  Forall (fun entry => String.eqb (fst entry) "__proto__" = false) entries ->
  forall props,
    (forall k, In k (map fst entries) -> ~ In k (map fst props)) ->
    fold_left literal_property entries props = props ++ entries.
Proof.
  induction entries as [|[k v] entries IH]; intros Hnd Hidx Hproto props Hfresh; simpl.
  - symmetry. apply app_nil_r.
  - inversion Hnd as [|? ? Hk Hnd']; subst.
    inversion Hidx as [|? ? Hi Hidx']; subst. simpl in Hi.
    inversion Hproto as [|? ? Hp Hproto']; subst. simpl in Hp.
    unfold literal_property at 2. simpl. rewrite Hp.
    unfold define_property.
    rewrite update_property_new by (apply Hfresh; simpl; auto).
    rewrite Hi. rewrite IH; [rewrite <- app_assoc; reflexivity | assumption..|].
    intros k' Hk' Hin. rewrite map_app, in_app_iff in Hin. simpl in Hin.
    destruct Hin as [Hin|[<-|[]]].
    + apply (Hfresh k'); simpl; auto.
    + exact (Hk Hk').
Qed.

Lemma distinct_NoDup (keys : list string) : distinct keys = true -> NoDup keys.
Proof.
  induction keys as [|k keys IH]; simpl; intros H; [constructor|].
  apply andb_true_iff in H. destruct H as [Hk Hrest].
  constructor; [|exact (IH Hrest)].
  intros Hin. apply negb_true_iff in Hk.
  assert (Hex : existsb (String.eqb k) keys = true).
  { apply existsb_exists. exists k. split; [exact Hin | apply String.eqb_refl]. }
  congruence.
Qed.

(** A literal whose keys are distinct, are not array indices and are not
    [__proto__] keeps its entries in the order in which they are written. *)
Lemma object_literal_insertion_order entries :
  NoDup (map fst entries) ->
  Forall (fun entry => array_index (fst entry) = None) entries ->
  Forall (fun entry => String.eqb (fst entry) "__proto__" = false) entries ->
  object_literal entries = VObject entries.
Proof.
  intros Hnd Hidx Hproto. unfold object_literal. f_equal.
  rewrite define_properties_append; auto.
Qed.

Lemma parse_entry_recognized indent nodes key value :
  recognized value = true ->
  exists node,
    parse_entry parseStepsDef indent nodes key value = Some (nodes ++ [node]) /\
    node_of_entry indent (key, value) node.
Proof.
  intros Hrec. destruct value as [| |b|n|s|f|elems|props]; try discriminate.
  - eexists. split; reflexivity.
  - unfold recognized, isLabelTuple, isStepsDef in Hrec. simpl in Hrec.
    rewrite orb_false_r in Hrec. unfold parse_entry, node_of_entry. simpl.
    unfold isLabelTuple. simpl.
    destruct (Nat.eqb (List.length elems) 2); [|discriminate].
    simpl in *. rewrite Hrec. eexists. split; reflexivity.
  - destruct (parseStepsDef_returns (VObject props) (indent + 1) eq_refl) as [c Hc].
    unfold parse_entry. cbn [is_function Array_isArray typeof_object not_null andb].
    rewrite Hc. eexists. split; [reflexivity|].
    unfold node_of_entry. simpl. exists c. split; [exact Hc | reflexivity].
Qed.

Lemma node_of_entry_shape indent entry node :
  recognized (snd entry) = true ->
  node_of_entry indent entry node -> shape_of_entry entry node.
Proof.
  destruct entry as [k v]. unfold node_of_entry, shape_of_entry. simpl.
  destruct v as [| |b|n|s|f|elems|props]; try discriminate; intros Hrec.
  - intros ->. simpl. auto.
  - unfold recognized, isLabelTuple, isStepsDef in *. simpl in *.
    rewrite orb_false_r in Hrec. rewrite Hrec. intros ->. simpl.
    apply andb_true_iff in Hrec. destruct Hrec as [_ Hf].
    unfold has_work. simpl. destruct (nth 1 elems VUndefined); try discriminate.
    auto.
  - simpl. intros (c & _ & ->). simpl. auto.
Qed.

(** C3, as the code has it: the entries are processed in the order of
    [Object.entries], which is the order in which the literal declares them
    when the keys are distinct and none is an array index or [__proto__] (an
    array index is enumerated first, and [__proto__] is no entry of the
    mapping); a callable makes a leaf labelled [generateLabel key], a
    [label, callable] pair a leaf with
    the given label, a nested mapping a group whose children are its parse at
    [indent + 1]; one node per entry, in declaration order, a group having
    children and no work, a leaf work and no children. *)
Theorem parseStepsDef_dispatches_in_declaration_order
  (entries : list (string * Value)) (indent : nat) :
  forallb (fun entry => recognized (snd entry)) entries = true ->
  distinct (map fst entries) = true ->
  forallb (fun entry => negb (is_array_index (fst entry))) entries = true ->
  forallb (fun entry => negb (String.eqb (fst entry) "__proto__")) entries = true ->
  exists nodes,
    parseStepsDef (object_literal entries) indent = Some nodes /\
    Forall2 (node_of_entry indent) entries nodes /\
    Forall2 shape_of_entry entries nodes /\
    List.length nodes = List.length entries.
Proof.
  intros Hrec Hnd Hidx Hproto.
  apply distinct_NoDup in Hnd.
  assert (Hproto' : Forall (fun entry => String.eqb (fst entry) "__proto__" = false)
                      entries).
  { apply Forall_forall. intros e He.
    rewrite forallb_forall in Hproto. apply negb_true_iff, (Hproto e He). }
  clear Hproto. rename Hproto' into Hproto.
  assert (Hidx' : Forall (fun entry => array_index (fst entry) = None) entries).
  { apply Forall_forall. intros e He.
    rewrite forallb_forall in Hidx. specialize (Hidx e He).
    unfold is_array_index in Hidx. destruct (array_index (fst e)); [discriminate|].
    reflexivity. }
  clear Hidx. rename Hidx' into Hidx.
  assert (Hrec' : Forall (fun entry => recognized (snd entry) = true) entries).
  { apply Forall_forall. rewrite forallb_forall in Hrec. exact Hrec. }
  clear Hrec. rename Hrec' into Hrec.
  rewrite object_literal_insertion_order by assumption.
  cbn [parseStepsDef].
  assert (Hbody :
            Forall
              (fun entry =>
                 forall r, exists node,
                   parse_entry parseStepsDef indent r (fst entry) (snd entry) =
                   Some (r ++ [node]) /\ node_of_entry indent entry node)
              entries).
  { eapply Forall_impl; [|exact Hrec]. intros [k v] Hkv r.
    apply parse_entry_recognized, Hkv. }
  destruct (for_of_collect _ _ (node_of_entry indent) _ entries Hbody [])
    as (nodes & Hnodes & Hrel).
  exists nodes. split; [exact Hnodes|]. split; [exact Hrel|]. split.
  - clear Hnodes Hnd Hidx Hproto Hbody.
    induction Hrel as [|e n es ns Hen _ IH]; constructor;
      inversion Hrec; subst.
    + eapply node_of_entry_shape; eassumption.
    + apply IH. assumption.
  - symmetry. eapply Forall2_length, Hrel.
Qed.

Lemma parseStepsDef_dispatches_in_declaration_order_witness :
  exists nodes,
    parseStepsDef
      (object_literal
         [("loadModules", VFunction 0);
          ("parse", VArray [VString "Parse files"; VFunction 1]);
          ("build", VObject [("compile", VFunction 2)])]) 0 = Some nodes /\
    Forall2 (node_of_entry 0)
      [("loadModules", VFunction 0);
       ("parse", VArray [VString "Parse files"; VFunction 1]);
       ("build", VObject [("compile", VFunction 2)])] nodes /\
    Forall2 shape_of_entry
      [("loadModules", VFunction 0);
       ("parse", VArray [VString "Parse files"; VFunction 1]);
       ("build", VObject [("compile", VFunction 2)])] nodes /\
    List.length nodes = 3.
Proof.
  apply (parseStepsDef_dispatches_in_declaration_order
           [("loadModules", VFunction 0);
            ("parse", VArray [VString "Parse files"; VFunction 1]);
            ("build", VObject [("compile", VFunction 2)])] 0).
  - reflexivity.
  - reflexivity.
  - reflexivity.
  - reflexivity.
Defined.

(** C3, as stated, fails when a key is an array index: [Object.entries] puts
    the key ["7"], declared second, before the key ["step"], declared
    first. *)
Lemma parseStepsDef_array_index_key_comes_first :
  parseStepsDef
    (object_literal
       [("step", VFunction 0);
        ("7", VArray [VString "Seven"; VFunction 1]);
        ("group", VObject [("inner", VFunction 2)])]) 0 =
  Some
    [mkStepNode (VString "Seven") "7" (Some (VFunction 1)) None 0;
     mkStepNode (VString "Step") "step" (Some (VFunction 0)) None 0;
     mkStepNode (VString "Group") "group" None
       (Some [mkStepNode (VString "Inner") "inner" (Some (VFunction 2)) None 1]) 0].
Proof. vm_compute. reflexivity. Qed.

(** The key [__proto__] of a literal is not an entry of the mapping: the
    parser never sees it. *)
Lemma parseStepsDef_proto_is_no_entry :
  parseStepsDef
    (object_literal
       [("__proto__", VFunction 0);
        ("parse", VArray [VString "Parse files"; VFunction 1]);
        ("build", VObject [("compile", VFunction 2)])]) 0 =
  parseStepsDef
    (object_literal
       [("parse", VArray [VString "Parse files"; VFunction 1]);
        ("build", VObject [("compile", VFunction 2)])]) 0.
Proof. reflexivity. Qed.

Lemma forallb_snoc (A : Type) (p : A -> bool) (xs : list A) (x : A) :
  forallb p xs = true -> p x = true -> forallb p (xs ++ [x]) = true.
Proof.
  intros Hxs Hx. rewrite forallb_app, Hxs. simpl. rewrite Hx. reflexivity.
Qed.

Lemma parse_entry_typed indent nodes key value :
  StepValue_typed value = true ->
  (StepsDef_typed value = true ->
   exists children,
     parseStepsDef value (indent + 1) = Some children /\
     forallb (every_node exactly_one) children = true) ->
  forallb (every_node exactly_one) nodes = true ->
  exists nodes',
    parse_entry parseStepsDef indent nodes key value = Some nodes' /\
    forallb (every_node exactly_one) nodes' = true.
Proof.
  intros Htyped Hrec Hnodes.
  destruct value as [| |b|n|s|f|elems|props]; try discriminate.
  - eexists. split; [reflexivity|]. apply forallb_snoc; [exact Hnodes | reflexivity].
  - destruct elems as [|[| | | |l| | |] [|[| | | | |w| |] [|]]]; try discriminate.
    eexists. split; [reflexivity|]. apply forallb_snoc; [exact Hnodes | reflexivity].
  - destruct (Hrec Htyped) as (c & Hc & Hall).
    unfold parse_entry. cbn [is_function Array_isArray typeof_object not_null andb].
    rewrite Hc. eexists. split; [reflexivity|].
    apply forallb_snoc; [exact Hnodes|]. simpl. exact Hall.
Qed.

(** C7: in the tree that [parseStepsDef] returns for a Steps Definition, at
    any starting indent, every node at every depth has exactly one of [work]
    and [children]. *)
Theorem parseStepsDef_nodes_have_work_xor_children (def : Value) (indent : nat) :
  StepsDef_typed def = true ->
  exists nodes,
    parseStepsDef def indent = Some nodes /\
    forallb (every_node exactly_one) nodes = true.
Proof.
  revert indent.
  induction def as [| |b|n|s|f|elems _|props IH] using Value_nested_ind;
    intros indent Htyped; try discriminate.
  cbn [parseStepsDef]. simpl in Htyped.
  apply for_of_invariant with (Inv := fun nodes => forallb (every_node exactly_one) nodes = true);
    [|reflexivity].
  rewrite forallb_forall in Htyped. rewrite Forall_forall in IH |- *.
  intros [k v] Hin nodes Hnodes. simpl.
  apply parse_entry_typed; [exact (Htyped _ Hin) | | exact Hnodes].
  intros Hv. exact (IH _ Hin (indent + 1) Hv).
Qed.

Lemma parseStepsDef_nodes_have_work_xor_children_witness :
  StepsDef_typed
    (VObject
       [("loadModules", VFunction 0);
        ("parse", VArray [VString "Parse files"; VFunction 1]);
        ("build", VObject [("compile", VFunction 2)])]) = true /\
  exists nodes,
    parseStepsDef
      (VObject
         [("loadModules", VFunction 0);
          ("parse", VArray [VString "Parse files"; VFunction 1]);
          ("build", VObject [("compile", VFunction 2)])]) 0 = Some nodes /\
    forallb (every_node exactly_one) nodes = true.
Proof.
  split; [reflexivity|].
  apply (parseStepsDef_nodes_have_work_xor_children
           (VObject
              [("loadModules", VFunction 0);
               ("parse", VArray [VString "Parse files"; VFunction 1]);
               ("build", VObject [("compile", VFunction 2)])]) 0).
  reflexivity.
Defined.

(** ** Properties of the ETA utilities *)

Local Open Scope Q_scope.

Lemma elapsed_sign (dt : Q) : dt / 1000 <= 0 <-> dt <= 0.
Proof.
  destruct dt as [a b]. unfold Qle, Qdiv, Qmult, Qinv. simpl. lia.
Qed.

Lemma Math_max_0_done (x : Q) : x <= 0 -> Math_max 0 x == 0.
Proof.
  intros Hx. unfold Math_max. destruct (Qle_bool 0 x) eqn:H0; [|reflexivity].
  apply Qle_bool_iff in H0. apply Qle_antisym; assumption.
Qed.

Lemma calculateETA_absent (buffer : list ETASample) (current total : Q) :
  calculateETA buffer current total = None <->
  (List.length buffer < 2)%nat \/ delta_time buffer <= 0 \/ delta_value buffer <= 0.
Proof.
  unfold calculateETA. destruct (Nat.ltb_spec (List.length buffer) 2) as [Hlen|Hlen].
  - split; auto.
  - destruct (Qle_bool (delta_time buffer / 1000) 0) eqn:Ht; simpl.
    + apply Qle_bool_iff in Ht. apply (proj1 (elapsed_sign _)) in Ht.
      split; auto.
    + destruct (Qle_bool (delta_value buffer) 0) eqn:Hv.
      * apply Qle_bool_iff in Hv. split; auto.
      * split; [discriminate|]. intros [H|[H|H]].
        -- lia.
        -- apply (proj2 (elapsed_sign _)) in H. apply Qle_bool_iff in H.
           congruence.
        -- apply Qle_bool_iff in H. congruence.
Qed.

(** C1, with the unit that the repository's test fixes: [calculateETA] is
    absent exactly when the buffer has fewer than 2 samples, or the time
    between the first and the last sample is not positive, or the progress
    between them is not positive; otherwise it returns the remaining work
    [max(0, total - current)] over the rate, where the rate is the progress
    per second and the timestamps are milliseconds; it is 0, not absent, when
    [current >= total]; and the documented example gives 9. *)
Theorem calculateETA_two_point_estimate
  (buffer : list ETASample) (current total : Q) :
  (calculateETA buffer current total = None <->
   (List.length buffer < 2)%nat \/ delta_time buffer <= 0 \/ delta_value buffer <= 0) /\
  ((2 <= List.length buffer)%nat -> 0 < delta_time buffer -> 0 < delta_value buffer ->
   exists eta,
     calculateETA buffer current total = Some eta /\
     eta == Math_max 0 (total - current) /
            (delta_value buffer / (delta_time buffer / 1000)) /\
     (total <= current -> eta == 0)) /\
  (exists eta,
     calculateETA [mkETASample 1000 0; mkETASample 2000 10] 10 100 = Some eta /\
     eta == 9).
Proof.
  split; [apply calculateETA_absent|]. split.
  - intros Hlen Ht Hv.
    destruct (calculateETA buffer current total) as [eta|] eqn:Heta.
    + exists eta. split; [reflexivity|].
      unfold calculateETA in Heta.
      destruct (List.length buffer <? 2)%nat; [discriminate|].
      destruct (Qle_bool _ 0 || Qle_bool _ 0)%bool; [discriminate|].
      inversion Heta; subst. split; [reflexivity|].
      intros Hdone.
      assert (Hrem : Math_max 0 (total - current) == 0).
      { apply Math_max_0_done. unfold Qminus. rewrite <- (Qplus_opp_r current).
        apply Qplus_le_compat; [exact Hdone | apply Qle_refl]. }
      rewrite Hrem. unfold Qdiv. ring.
    + apply calculateETA_absent in Heta. destruct Heta as [H|[H|H]].
      * lia.
      * exfalso. exact (Qlt_not_le _ _ Ht H).
      * exfalso. exact (Qlt_not_le _ _ Hv H).
  - eexists. split; [vm_compute; reflexivity | reflexivity].
Qed.

Lemma calculateETA_two_point_estimate_witness :
  exists eta,
    calculateETA [mkETASample 0 0; mkETASample 4000 8; mkETASample 5000 20] 100 100
    = Some eta /\
    eta == Math_max 0 (100 - 100) /
           (delta_value [mkETASample 0 0; mkETASample 4000 8; mkETASample 5000 20] /
            (delta_time [mkETASample 0 0; mkETASample 4000 8; mkETASample 5000 20] / 1000)) /\
    (100 <= 100 -> eta == 0).
Proof.
  apply (proj1 (proj2 (calculateETA_two_point_estimate
                         [mkETASample 0 0; mkETASample 4000 8; mkETASample 5000 20]
                         100 100))).
  - simpl. lia.
  - reflexivity.
  - reflexivity.
Defined.

(** C1, as stated, fails on its own example: the result is 9, and the
    quotient with the elapsed time in the unit of the timestamps is 9000. *)
Lemma calculateETA_is_not_quotient_in_timestamp_unit :
  exists eta,
    calculateETA [mkETASample 1000 0; mkETASample 2000 10] 10 100 = Some eta /\
    eta == 9 /\
    quotient_in_timestamp_unit [mkETASample 1000 0; mkETASample 2000 10] 10 100 == 9000 /\
    ~ eta == quotient_in_timestamp_unit [mkETASample 1000 0; mkETASample 2000 10] 10 100.
Proof.
  eexists. split; [vm_compute; reflexivity|].
  split; [reflexivity|]. split; [reflexivity|]. intros H. discriminate H.
Qed.

Local Close Scope Q_scope.

Local Open Scope N_scope.

(** A field below 100 is padded to exactly two characters. *)
Lemma pad2_length (n : N) : n < 100 -> String.length (pad2 n) = 2%nat.
Proof.
  intros Hn.
  assert (Hall : forallb (fun k => Nat.eqb (String.length (pad2 (N.of_nat k))) 2)
                   (seq 0 100) = true) by (vm_compute; reflexivity).
  rewrite forallb_forall in Hall.
  specialize (Hall (N.to_nat n)). rewrite N2Nat.id in Hall.
  apply Nat.eqb_eq, Hall, in_seq. lia.
Qed.

Local Close Scope N_scope.
Local Open Scope Z_scope.

Lemma pad2_field (z : Z) :
  0 <= z < 60 -> String.length (pad2 (Z.to_N z)) = 2%nat.
Proof. intros Hz. apply pad2_length. lia. Qed.

Lemma whole_seconds_from (x : Q) (z : Z) :
  (inject_Z z <= x)%Q -> z <= Qfloor x.
Proof.
  intros Hx. rewrite <- (Qfloor_Z z). apply Qfloor_resp_le, Hx.
Qed.

(** C4: the four rules of [formatETA], in order, on every input: absent,
    not-a-number and the infinities give "--:--"; a number above 86400 gives
    ">1d"; from 3600 on the format is H:MM:SS, hours unpadded, minutes and
    seconds padded to 2 digits; every other number, fractions and negative
    numbers included, gives M:SS, minutes unpadded, seconds padded to 2
    digits; and the documented examples. *)
Theorem formatETA_rules (x : Q) :
  formatETA None = "--:--"%string /\
  formatETA (Some NaN) = "--:--"%string /\
  formatETA (Some (Infinity false)) = "--:--"%string /\
  formatETA (Some (Infinity true)) = "--:--"%string /\
  ((86400 < x)%Q -> formatETA (Some (Finite x)) = ">1d"%string) /\
  ((3600 <= x)%Q /\ (x <= 86400)%Q ->
   exists h m sec,
     Qfloor x = h * 3600 + m * 60 + sec /\ 1 <= h <= 24 /\ 0 <= m < 60 /\ 0 <= sec < 60 /\
     formatETA (Some (Finite x)) =
       (decimal_Z h ++ ":" ++ pad2 (Z.to_N m) ++ ":" ++ pad2 (Z.to_N sec))%string /\
     String.length (pad2 (Z.to_N m)) = 2%nat /\
     String.length (pad2 (Z.to_N sec)) = 2%nat) /\
  ((x < 3600)%Q ->
   exists m sec,
     Qfloor x = m * 60 + sec /\ m < 60 /\ 0 <= sec < 60 /\
     formatETA (Some (Finite x)) = (decimal_Z m ++ ":" ++ pad2 (Z.to_N sec))%string /\
     String.length (pad2 (Z.to_N sec)) = 2%nat) /\
  map (fun n => formatETA (Some (Finite (inject_Z n))))
    [45; 90; 125; 3665; 7200; 86401; 61; 3601] =
  ["0:45"; "1:30"; "2:05"; "1:01:05"; "2:00:00"; ">1d"; "1:01"; "1:00:01"]%string.
Proof.
  repeat (split; [reflexivity|]).
  set (w := Qfloor x).
  assert (Hsec : 0 <= w mod 60 < 60) by (apply Z.mod_pos_bound; lia).
  assert (Hmin : 0 <= (w mod 3600) / 60 < 60).
  { pose proof (Z.mod_pos_bound w 3600 ltac:(lia)) as Hr.
    split; [apply Z.div_pos; lia | apply Z.div_lt_upper_bound; lia]. }
  assert (Hsplit60 : w = w / 60 * 60 + w mod 60).
  { pose proof (Z.div_mod w 60 ltac:(lia)). lia. }
  assert (Hsplit : w = w / 3600 * 3600 + (w mod 3600) / 60 * 60 + w mod 60).
  { pose proof (Z.div_mod w 3600 ltac:(lia)) as H1.
    pose proof (Z.div_mod (w mod 3600) 60 ltac:(lia)) as H2.
    assert (H3 : (w mod 3600) mod 60 = w mod 60).
    { rewrite (Z.mod_eq w 3600) by lia.
      replace (w - 3600 * (w / 3600)) with (w + (- 60 * (w / 3600)) * 60) by lia.
      apply Z.mod_add. lia. }
    lia. }
  split; [|split; [|split]].
  - intros Hx. unfold formatETA.
    replace (Qle_bool x 86400) with false; [reflexivity|].
    symmetry. apply not_true_is_false. intros Hle.
    apply Qle_bool_iff in Hle. exact (Qlt_not_le _ _ Hx Hle).
  - intros [Hlo Hhi].
    assert (Hw : 3600 <= w <= 86400).
    { split; [apply (whole_seconds_from x 3600 Hlo)|].
      rewrite <- (Qfloor_Z 86400). apply Qfloor_resp_le, Hhi. }
    exists (w / 3600), ((w mod 3600) / 60), (w mod 60).
    split; [exact Hsplit|]. split.
    { split; [apply Z.div_le_lower_bound; lia | apply Z.div_le_upper_bound; lia]. }
    split; [exact Hmin|]. split; [exact Hsec|].
    split; [|split; apply pad2_field; assumption].
    unfold formatETA. apply Qle_bool_iff in Hlo, Hhi. rewrite Hlo, Hhi. reflexivity.
  - intros Hx. exists (w / 60), (w mod 60).
    split; [exact Hsplit60|]. split.
    { apply Z.div_lt_upper_bound; [lia|].
      assert (Hw : w < 3600); [|lia].
      rewrite Zlt_Qlt. apply Qle_lt_trans with (y := x); [apply Qfloor_le | exact Hx]. }
    split; [exact Hsec|]. split; [|apply pad2_field; exact Hsec].
    unfold formatETA.
    replace (Qle_bool x 86400) with true.
    + replace (Qle_bool 3600 x) with false; [reflexivity|].
      symmetry. apply not_true_is_false. intros Hle.
      apply Qle_bool_iff in Hle. exact (Qlt_not_le _ _ Hx Hle).
    + symmetry. apply Qle_bool_iff. apply Qlt_le_weak.
      apply Qlt_trans with (y := 3600%Q); [exact Hx | reflexivity].
  - vm_compute. reflexivity.
Qed.

Lemma formatETA_rules_witness :
  exists h m sec,
    Qfloor (7331 # 2) = h * 3600 + m * 60 + sec /\
    1 <= h <= 24 /\ 0 <= m < 60 /\ 0 <= sec < 60 /\
    formatETA (Some (Finite (7331 # 2))) =
      (decimal_Z h ++ ":" ++ pad2 (Z.to_N m) ++ ":" ++ pad2 (Z.to_N sec))%string /\
    String.length (pad2 (Z.to_N m)) = 2%nat /\
    String.length (pad2 (Z.to_N sec)) = 2%nat.
Proof.
  apply (proj1 (proj2 (proj2 (proj2 (proj2 (proj2 (formatETA_rules (7331 # 2)))))))).
  split; vm_compute; discriminate.
Defined.

Local Close Scope Z_scope.


Lemma tl_skipn (A : Type) (n : nat) (xs : list A) : tl (skipn n xs) = skipn (S n) xs.
Proof.
  revert xs. induction n as [|n IH]; intros [|x xs]; try reflexivity.
  apply (IH xs).
Qed.

Lemma last_n_length (A : Type) (n : nat) (xs : list A) :
  List.length (last_n n xs) = Nat.min n (List.length xs).
Proof. unfold last_n. rewrite length_skipn. lia. Qed.

(** Recording one more sample keeps the buffer equal to the most recent
    samples. *)
Lemma record_last_n (n : nat) (seen : list ETASample) (sample : ETASample) :
  buffer (record (mkETATracker n (last_n n seen)) sample) = last_n n (seen ++ [sample]).
Proof.
  unfold record. cbn [buffer bufferSize].
  rewrite length_app, last_n_length. cbn [List.length].
  unfold last_n. rewrite length_app. cbn [List.length].
  destruct (Nat.ltb_spec n (Nat.min n (List.length seen) + 1)) as [Hfull|Hroom].
  - assert (Hlen : n <= List.length seen) by lia.
    replace (List.length seen + 1 - n) with (S (List.length seen - n)) by lia.
    rewrite <- tl_skipn. rewrite skipn_app.
    replace (List.length seen - n - List.length seen) with 0 by lia.
    reflexivity.
  - replace (List.length seen - n) with 0 by lia.
    replace (List.length seen + 1 - n) with 0 by lia.
    reflexivity.
Qed.

Lemma record_all_last_n (n : nat) (samples seen : list ETASample) :
  fold_left record samples (mkETATracker n (last_n n seen)) =
  mkETATracker n (last_n n (seen ++ samples)).
Proof.
  revert seen. induction samples as [|s samples IH]; intros seen; simpl.
  - rewrite app_nil_r. reflexivity.
  - replace (record (mkETATracker n (last_n n seen)) s)
      with (mkETATracker n (last_n n (seen ++ [s]))).
    + rewrite IH, <- app_assoc. reflexivity.
    + rewrite <- record_last_n. reflexivity.
Qed.

Lemma apply_op_bounded (tracker : ETATracker) (op : TrackerOp) :
  List.length (buffer tracker) <= bufferSize tracker ->
  List.length (buffer (apply_op tracker op)) <= bufferSize (apply_op tracker op) /\
  bufferSize (apply_op tracker op) = bufferSize tracker.
Proof.
  intros Hinv. destruct op as [sample|]; simpl; [|lia].
  split; [|reflexivity]. rewrite length_app. simpl.
  destruct (Nat.ltb_spec (bufferSize tracker) (List.length (buffer tracker) + 1)).
  - destruct (buffer tracker ++ [sample]) eqn:Happ.
    + simpl. lia.
    + apply (f_equal (@List.length _)) in Happ. rewrite length_app in Happ.
      simpl in *. lia.
  - rewrite length_app. simpl. lia.
Qed.

Lemma run_ops_bounded (ops : list TrackerOp) (tracker : ETATracker) :
  List.length (buffer tracker) <= bufferSize tracker ->
  List.length (buffer (fold_left apply_op ops tracker)) <= bufferSize tracker.
Proof.
  revert tracker. induction ops as [|op ops IH]; intros tracker Hinv; simpl.
  - exact Hinv.
  - destruct (apply_op_bounded tracker op Hinv) as [Hinv' Hsize].
    rewrite <- Hsize. apply IH, Hinv'.
Qed.

(** C5: a tracker of capacity [n] that recorded [samples] holds the [n] most
    recent ones, oldest first, exactly [n] of them when more than [n] were
    recorded; after any sequence of [record] and [reset] the buffer has at
    most [n] samples; and the default capacity is 10. *)
Theorem tracker_buffer_keeps_most_recent
  (n : nat) (samples : list ETASample) (ops : list TrackerOp) :
  getBuffer (fold_left record samples (createETATracker (Some n))) = last_n n samples /\
  (n < List.length samples ->
   List.length (getBuffer (fold_left record samples (createETATracker (Some n)))) = n) /\
  List.length (getBuffer (fold_left apply_op ops (createETATracker (Some n)))) <= n /\
  DEFAULT_ETA_BUFFER_SIZE = 10 /\
  bufferSize (createETATracker None) = 10.
Proof.
  assert (Hbuf : fold_left record samples (createETATracker (Some n)) =
                 mkETATracker n (last_n n samples)).
  { apply (record_all_last_n n samples []). }
  split; [rewrite Hbuf; reflexivity|]. split.
  - intros Hmore. rewrite Hbuf. unfold getBuffer. simpl.
    rewrite last_n_length. lia.
  - split; [|split; reflexivity].
    apply (run_ops_bounded ops (createETATracker (Some n))). simpl. lia.
Qed.

Lemma tracker_buffer_keeps_most_recent_witness :
  List.length
    (getBuffer
       (fold_left record
          [mkETASample 1 0; mkETASample 2 10; mkETASample 3 20; mkETASample 4 30]
          (createETATracker (Some 3)))) = 3.
Proof.
  apply (proj1 (proj2 (tracker_buffer_keeps_most_recent 3
                         [mkETASample 1 0; mkETASample 2 10; mkETASample 3 20;
                          mkETASample 4 30] []))).
  simpl. lia.
Defined.

(** ** More properties of parseStepsDef *)

Lemma parseStepsDef_primitive (def : Value) (indent : nat) :
  typeof_object def && not_null def = false ->
  parseStepsDef def indent = None \/ parseStepsDef def indent = Some [].
Proof. destruct def; simpl; intros H; auto; discriminate. Qed.

Lemma indexed_from_values (P : Value -> Prop) (elems : list Value) :
  Forall P elems -> forall i, Forall (fun entry => P (snd entry)) (indexed_from i elems).
Proof.
  induction 1 as [|v vs Hv _ IH]; intros i; simpl; constructor; auto.
Qed.

(** Induction on what the parser visits: a property holds of every value if
    it holds of the values that are not objects and of an object or array
    whenever it holds of the values of its entries. *)
Lemma Value_entries_ind (P : Value -> Prop) :
  (forall def, typeof_object def && not_null def = false -> P def) ->
  (forall def entries,
      typeof_object def && not_null def = true ->
      Object_entries def = Some entries ->
      Forall (fun entry => P (snd entry)) entries -> P def) ->
  forall def, P def.
Proof.
  intros Hprim Hobj def.
  induction def as [| |b|n|s|f|elems IH|props IH] using Value_nested_ind;
    try (apply Hprim; reflexivity).
  - apply (Hobj (VArray elems) (indexed_from 0 elems)); try reflexivity.
    apply indexed_from_values, IH.
  - apply (Hobj (VObject props) props); try reflexivity. exact IH.
Qed.

(** What a loop that returns has done: every step kept the invariant. *)
Lemma for_of_preserves (A R : Type) (Inv : R -> Prop) (body : R -> A -> option R) xs :
  Forall (fun x => forall r r', Inv r -> body r x = Some r' -> Inv r') xs ->
  forall result result',
    Inv result -> for_of body xs result = Some result' -> Inv result'.
Proof.
  induction 1 as [|x xs Hx _ IH]; intros result result' Hinv Hrun; simpl in Hrun.
  - inversion Hrun; subst. exact Hinv.
  - destruct (body result x) as [r|] eqn:Hbody; [|discriminate].
    exact (IH r result' (Hx result r Hinv Hbody) Hrun).
Qed.

(** A quantity of the accumulator that each step updates by [step] is, at the
    end, the fold of [step] over the entries. *)
Lemma for_of_fold (A R B : Type) (f : R -> B) (step : B -> A -> B)
  (body : R -> A -> option R) xs :
  Forall (fun x => forall r r', body r x = Some r' -> f r' = step (f r) x) xs ->
  forall result result',
    for_of body xs result = Some result' -> f result' = fold_left step xs (f result).
Proof.
  induction 1 as [|x xs Hx _ IH]; intros result result' Hrun; simpl in Hrun.
  - inversion Hrun; subst. reflexivity.
  - destruct (body result x) as [r|] eqn:Hbody; [|discriminate].
    simpl. rewrite <- (Hx result r Hbody). exact (IH r result' Hrun).
Qed.

(** The three outcomes of the loop body. *)
Lemma parse_entry_result parse indent nodes key value nodes' :
  parse_entry parse indent nodes key value = Some nodes' ->
  (no_branch_taken value = true /\ nodes' = nodes) \/
  (branch_taken value = true /\
   exists lbl w, nodes' = nodes ++ [mkStepNode lbl key (Some w) None indent]) \/
  (branch_taken value = true /\
   exists c,
     parse value (indent + 1) = Some c /\
     nodes' = nodes ++ [mkStepNode (VString (generateLabel key)) key None (Some c) indent]).
Proof.
  unfold parse_entry, branch_taken, no_branch_taken.
  destruct (is_function value); simpl.
  - intros H; inversion H; subst. right; left. split; [reflexivity|]. eauto.
  - destruct (Array_isArray value && Nat.eqb (array_length value) 2); simpl.
    + intros H; inversion H; subst. right; left. split; [reflexivity|]. eauto.
    + destruct (typeof_object value && not_null value); simpl.
      * destruct (parse value (indent + 1)) as [c|]; [|discriminate].
        intros H; inversion H; subst. right; right. split; [reflexivity|]. eauto.
      * intros H; inversion H; subst. left. auto.
Qed.

Lemma parseStepsDef_entries (def : Value) (entries : list (string * Value))
  (indent : nat) :
  Object_entries def = Some entries ->
  parseStepsDef def indent =
  for_of
    (fun nodes entry => parse_entry parseStepsDef indent nodes (fst entry) (snd entry))
    entries [].
Proof. intros H. rewrite parseStepsDef_unfold, H. reflexivity. Qed.

(** X2: the [indent] of every node is its depth: the nodes that
    [parseStepsDef(def, indent)] returns are at [indent], and the children of
    a node are one level deeper than the node, at every depth, whatever the
    definition holds. *)
Theorem parseStepsDef_indent_is_depth (def : Value) :
  forall (indent : nat) (nodes : list StepNode),
    parseStepsDef def indent = Some nodes ->
    forallb (fun node => indented_from node indent) nodes = true.
Proof.
  induction def as [def Hprim | def entries Hobj Hentries IH] using Value_entries_ind;
    intros indent nodes Hparse.
  - destruct (parseStepsDef_primitive def indent Hprim) as [H|H];
      rewrite H in Hparse; inversion Hparse; reflexivity.
  - rewrite (parseStepsDef_entries def entries indent Hentries) in Hparse.
    revert Hparse.
    apply for_of_preserves
      with (Inv := fun r => forallb (fun node => indented_from node indent) r = true);
      [|reflexivity].
    eapply Forall_impl; [|exact IH]. intros [k v] Hv r r' Hr Hbody. simpl in *.
    apply parse_entry_result in Hbody.
    destruct Hbody as [[_ ->] | [[_ (lbl & w & ->)] | [_ (c & Hc & ->)]]].
    + exact Hr.
    + apply forallb_snoc; [exact Hr|]. simpl. rewrite Nat.eqb_refl. reflexivity.
    + apply forallb_snoc; [exact Hr|]. simpl. rewrite Nat.eqb_refl. simpl.
      rewrite <- Nat.add_1_r. exact (Hv (indent + 1) c Hc).
Qed.

Lemma parseStepsDef_indent_is_depth_witness :
  forallb (fun node => indented_from node 2)
    [mkStepNode (VString "Build") "build" None
       (Some [mkStepNode (VString "Compile") "compile" (Some (VFunction 0)) None 3]) 2]
  = true.
Proof.
  apply (parseStepsDef_indent_is_depth
           (VObject [("build", VObject [("compile", VFunction 0)])]) 2).
  vm_compute. reflexivity.
Defined.

(** X3: whatever the definition holds, every node that [parseStepsDef] builds,
    at every depth, is a leaf with the property [work] and no [children], or
    a group with [children], no [work] and the label generated from its key:
    never both properties, never neither. *)
Theorem parseStepsDef_builds_leaves_and_groups (def : Value) :
  forall (indent : nat) (nodes : list StepNode),
    parseStepsDef def indent = Some nodes ->
    forallb (every_node leaf_or_group) nodes = true.
Proof.
  induction def as [def Hprim | def entries Hobj Hentries IH] using Value_entries_ind;
    intros indent nodes Hparse.
  - destruct (parseStepsDef_primitive def indent Hprim) as [H|H];
      rewrite H in Hparse; inversion Hparse; reflexivity.
  - rewrite (parseStepsDef_entries def entries indent Hentries) in Hparse.
    revert Hparse.
    apply for_of_preserves
      with (Inv := fun r => forallb (every_node leaf_or_group) r = true);
      [|reflexivity].
    eapply Forall_impl; [|exact IH]. intros [k v] Hv r r' Hr Hbody. simpl in *.
    apply parse_entry_result in Hbody.
    destruct Hbody as [[_ ->] | [[_ (lbl & w & ->)] | [_ (c & Hc & ->)]]].
    + exact Hr.
    + apply forallb_snoc; [exact Hr | reflexivity].
    + apply forallb_snoc; [exact Hr|]. simpl.
      unfold leaf_or_group. simpl. rewrite String.eqb_refl. simpl.
      exact (Hv (indent + 1) c Hc).
Qed.

Lemma parseStepsDef_builds_leaves_and_groups_witness :
  forallb (every_node leaf_or_group)
    [mkStepNode (VString "x") "a" (Some VNull) None 0;
     mkStepNode (VString "B") "b" None (Some []) 0] = true.
Proof.
  apply (parseStepsDef_builds_leaves_and_groups
           (VObject [("a", VArray [VString "x"; VNull]); ("b", VArray [])]) 0).
  vm_compute. reflexivity.
Defined.

Lemma fold_left_taken_keys (entries : list (string * Value)) (keys : list string) :
  fold_left
    (fun ks entry => if branch_taken (snd entry) then ks ++ [fst entry] else ks)
    entries keys =
  keys ++ map fst (filter (fun entry => branch_taken (snd entry)) entries).
Proof.
  revert keys. induction entries as [|[k v] entries IH]; intros keys; simpl.
  - symmetry. apply app_nil_r.
  - rewrite IH. destruct (branch_taken v); simpl; [|reflexivity].
    rewrite <- app_assoc. reflexivity.
Qed.

(** X4: the nodes that [parseStepsDef] returns are, in the order of
    [Object.entries], one node per entry for which the loop body takes a
    branch, under the key of that entry; an entry that takes no branch leaves
    no trace. *)
Theorem parseStepsDef_keys_of_taken_entries
  (def : Value) (entries : list (string * Value)) (indent : nat) (nodes : list StepNode) :
  Object_entries def = Some entries ->
  parseStepsDef def indent = Some nodes ->
  map key nodes = map fst (filter (fun entry => branch_taken (snd entry)) entries).
Proof.
  intros Hentries Hparse.
  rewrite (parseStepsDef_entries def entries indent Hentries) in Hparse.
  apply (for_of_fold _ _ _ (map key)
           (fun ks entry => if branch_taken (snd entry) then ks ++ [fst entry] else ks))
    in Hparse.
  - rewrite Hparse. apply (fold_left_taken_keys entries []).
  - apply Forall_forall. intros [k v] _ r r' Hbody. simpl in *.
    apply parse_entry_result in Hbody.
    destruct Hbody as [[Hskip ->] | [[Htaken (lbl & w & ->)] | [Htaken (c & Hc & ->)]]].
    + unfold branch_taken. rewrite Hskip. reflexivity.
    + rewrite Htaken, map_app. reflexivity.
    + rewrite Htaken, map_app. reflexivity.
Qed.

Lemma parseStepsDef_keys_of_taken_entries_witness :
  map key
    [mkStepNode (VString "Load") "load" (Some (VFunction 0)) None 0;
     mkStepNode (VString "Save") "save" (Some (VFunction 1)) None 0] =
  map fst
    (filter (fun entry => branch_taken (snd entry))
       [("load", VFunction 0); ("retries", VNumber 3); ("save", VFunction 1)]).
Proof.
  apply (parseStepsDef_keys_of_taken_entries
           (VObject [("load", VFunction 0); ("retries", VNumber 3); ("save", VFunction 1)])
           [("load", VFunction 0); ("retries", VNumber 3); ("save", VFunction 1)] 0).
  - reflexivity.
  - vm_compute. reflexivity.
Defined.

Lemma parse_entry_shift parse indent (pre nodes : list StepNode) key value :
  parse_entry parse indent (pre ++ nodes) key value =
  option_map (app pre) (parse_entry parse indent nodes key value).
Proof.
  unfold parse_entry. destruct (is_function value); simpl.
  - rewrite app_assoc. reflexivity.
  - destruct (Array_isArray value && _); simpl.
    + rewrite app_assoc. reflexivity.
    + destruct (typeof_object value && not_null value); [|reflexivity].
      destruct (parse value (indent + 1)); simpl; [|reflexivity].
      rewrite app_assoc. reflexivity.
Qed.

Lemma for_of_parse_shift indent (entries : list (string * Value)) :
  forall pre nodes,
    for_of
      (fun r entry => parse_entry parseStepsDef indent r (fst entry) (snd entry))
      entries (pre ++ nodes) =
    option_map (app pre)
      (for_of
         (fun r entry => parse_entry parseStepsDef indent r (fst entry) (snd entry))
         entries nodes).
Proof.
  induction entries as [|[k v] entries IH]; intros pre nodes; simpl; [reflexivity|].
  rewrite parse_entry_shift.
  destruct (parse_entry parseStepsDef indent nodes k v) as [r|]; simpl; [|reflexivity].
  apply IH.
Qed.

(** X5: parsing distributes over the concatenation of definitions: the nodes
    of a mapping whose entries are those of [first] followed by those of
    [second] are the nodes of [first] followed by the nodes of [second]. *)
Theorem parseStepsDef_concatenates (first second : list (string * Value)) (indent : nat) :
  exists nodes1 nodes2,
    parseStepsDef (VObject first) indent = Some nodes1 /\
    parseStepsDef (VObject second) indent = Some nodes2 /\
    parseStepsDef (VObject (first ++ second)) indent = Some (nodes1 ++ nodes2).
Proof.
  destruct (parseStepsDef_returns (VObject first) indent eq_refl) as [n1 H1].
  destruct (parseStepsDef_returns (VObject second) indent eq_refl) as [n2 H2].
  exists n1, n2. split; [exact H1|]. split; [exact H2|].
  cbn [parseStepsDef] in *. rewrite for_of_app, H1.
  rewrite <- (app_nil_r n1) at 1. rewrite for_of_parse_shift, H2. reflexivity.
Qed.

(** X6: the three shapes that [isLabelTuple], [isStepsDef] and
    [typeof value === "function"] recognize exclude one another, and
    [parseStepsDef] makes exactly one node, under the key of the entry, for
    an entry whose value has one of them. *)
Theorem recognized_shapes_are_disjoint_and_parsed
  (k : string) (value : Value) (indent : nat) :
  (is_function value && isLabelTuple value = false) /\
  (is_function value && isStepsDef value = false) /\
  (isLabelTuple value && isStepsDef value = false) /\
  (recognized value = true ->
   exists node,
     parseStepsDef (VObject [(k, value)]) indent = Some [node] /\
     key node = k /\
     node_of_entry indent (k, value) node).
Proof.
  split; [|split; [|split]].
  - destruct value; reflexivity.
  - destruct value; reflexivity.
  - destruct value as [| |b|n|s|f|elems|props]; try reflexivity.
    unfold isLabelTuple, isStepsDef. simpl. rewrite !andb_false_r. reflexivity.
  - intros Hrec.
    destruct (parse_entry_recognized indent [] k value Hrec) as (node & Hnode & Hof).
    exists node. cbn [parseStepsDef for_of fst snd]. rewrite Hnode.
    split; [reflexivity|]. split; [|exact Hof].
    apply (node_of_entry_shape indent (k, value) node Hrec Hof).
Qed.

Lemma recognized_shapes_are_disjoint_and_parsed_witness :
  exists node,
    parseStepsDef
      (VObject [("parse", VArray [VString "Parse files"; VFunction 1])]) 0 = Some [node] /\
    key node = "parse"%string /\
    node_of_entry 0 ("parse", VArray [VString "Parse files"; VFunction 1]) node.
Proof.
  apply (proj2 (proj2 (proj2 (recognized_shapes_are_disjoint_and_parsed
                                "parse" (VArray [VString "Parse files"; VFunction 1]) 0)))).
  reflexivity.
Defined.

(** ** From the definition to the work that runs *)

Lemma getLeafNodes_flat_map (nodes : list StepNode) :
  getLeafNodes nodes = flat_map leaves_node nodes.
Proof. unfold getLeafNodes. rewrite leaf_loop. reflexivity. Qed.

Lemma fold_left_declared_work (entries : list (string * Value)) (acc : list (option Value)) :
  fold_left (fun ws entry => ws ++ map Some (declared_work (snd entry))) entries acc =
  acc ++ map Some (flat_map (fun entry => declared_work (snd entry)) entries).
Proof.
  revert acc. induction entries as [|[k v] entries IH]; intros acc; simpl.
  - symmetry. apply app_nil_r.
  - rewrite IH, map_app, app_assoc. reflexivity.
Qed.

Lemma parse_entry_declared_work indent nodes key value nodes' :
  StepValue_typed value = true ->
  (forall c,
      StepsDef_typed value = true ->
      parseStepsDef value (indent + 1) = Some c ->
      map work (flat_map leaves_node c) = map Some (declared_work value)) ->
  parse_entry parseStepsDef indent nodes key value = Some nodes' ->
  map work (flat_map leaves_node nodes') =
  map work (flat_map leaves_node nodes) ++ map Some (declared_work value).
Proof.
  intros Htyped Hrec.
  destruct value as [| |b|n|s|f|elems|props]; try discriminate.
  - rewrite parse_entry_function. intros H; inversion H; subst.
    rewrite flat_map_app, map_app. reflexivity.
  - destruct elems as [|[| | | |l| | |] [|[| | | | |w| |] [|]]]; try discriminate.
    rewrite parse_entry_pair. intros H; inversion H; subst.
    rewrite flat_map_app, map_app. reflexivity.
  - unfold parse_entry. cbn [is_function Array_isArray typeof_object not_null andb].
    destruct (parseStepsDef (VObject props) (indent + 1)) as [c|] eqn:Hc;
      [|discriminate].
    intros H; inversion H; subst.
    rewrite flat_map_app, map_app. f_equal.
    cbn [flat_map]. rewrite app_nil_r. unfold leaves_node at 1. fold leaves_node.
    cbn [has_work work children app].
    exact (Hrec c Htyped eq_refl).
Qed.

(** X7: for a definition of the type [StepsDef], the work of the leaf nodes
    of the parsed tree, in the order of [getLeafNodes], is the sequence of
    the callables that the definition holds, in the order in which
    [Object.entries] enumerates each mapping, with nested groups in place:
    none is lost or added. *)
Theorem getLeafNodes_runs_declared_work (def : Value) :
  forall (indent : nat),
    StepsDef_typed def = true ->
    exists nodes,
      parseStepsDef def indent = Some nodes /\
      map work (getLeafNodes nodes) = map Some (declared_work def).
Proof.
  induction def as [| |b|n|s|f|elems _|props IH] using Value_nested_ind;
    intros indent Htyped; try discriminate.
  destruct (parseStepsDef_returns (VObject props) indent eq_refl) as [nodes Hparse].
  exists nodes. split; [exact Hparse|].
  rewrite getLeafNodes_flat_map. cbn [parseStepsDef] in Hparse.
  apply (for_of_fold _ _ _ (fun r => map work (flat_map leaves_node r))
           (fun ws entry => ws ++ map Some (declared_work (snd entry))))
    in Hparse.
  - rewrite Hparse. apply (fold_left_declared_work props []).
  - simpl in Htyped. rewrite forallb_forall in Htyped.
    rewrite Forall_forall in IH |- *.
    intros [k v] Hin r r' Hbody. simpl in *.
    apply (parse_entry_declared_work indent r k v r'); [exact (Htyped _ Hin) | | exact Hbody].
    intros c Hv Hc. destruct (IH _ Hin (indent + 1) Hv) as (c' & Hc' & Hwork).
    simpl in Hc'. rewrite Hc in Hc'. inversion Hc'; subst.
    rewrite <- getLeafNodes_flat_map. exact Hwork.
Qed.

Lemma getLeafNodes_runs_declared_work_witness :
  exists nodes,
    parseStepsDef
      (VObject
         [("loadModules", VFunction 0);
          ("build", VObject [("compile", VFunction 2);
                             ("link", VArray [VString "Link all"; VFunction 3])]);
          ("report", VFunction 4)]) 0 = Some nodes /\
    map work (getLeafNodes nodes) =
    map Some
      (declared_work
         (VObject
            [("loadModules", VFunction 0);
             ("build", VObject [("compile", VFunction 2);
                                ("link", VArray [VString "Link all"; VFunction 3])]);
             ("report", VFunction 4)])).
Proof.
  apply (getLeafNodes_runs_declared_work
           (VObject
              [("loadModules", VFunction 0);
               ("build", VObject [("compile", VFunction 2);
                                  ("link", VArray [VString "Link all"; VFunction 3])]);
               ("report", VFunction 4)]) 0).
  reflexivity.
Defined.

(** ** More properties of the traversals *)

(** X8: both traversals distribute over the concatenation of sequences of
    trees. *)
Theorem traversals_distribute_over_append (first second : list StepNode) :
  flattenStepNodes (first ++ second) = flattenStepNodes first ++ flattenStepNodes second /\
  getLeafNodes (first ++ second) = getLeafNodes first ++ getLeafNodes second.
Proof.
  split.
  - rewrite !flattenStepNodes_preorder. unfold preorder. apply flat_map_app.
  - rewrite !getLeafNodes_flat_map. apply flat_map_app.
Qed.

Lemma preorder_node_self (node : StepNode) : In node (preorder_node node).
Proof. destruct node as [l k w [c|] i]; simpl; auto. Qed.

Lemma preorder_closed_under_children (nodes : list StepNode) :
  forall node c child,
    In node (preorder nodes) -> children node = Some c -> In child c ->
    In child (preorder nodes).
Proof.
  pattern nodes.
  apply StepNodes_nested_ind with
    (P := fun t => forall node c child,
              In node (preorder_node t) -> children node = Some c -> In child c ->
              In child (preorder_node t)).
  - intros l k w i node c child [<-|[]] Hc _. discriminate.
  - intros l k w c0 i IH node c child Hin Hc Hchild. simpl in Hin |- *.
    destruct Hin as [<-|Hin].
    + simpl in Hc. inversion Hc; subst. right.
      apply in_flat_map. exists child. split; [exact Hchild | apply preorder_node_self].
    + right. exact (IH node c child Hin Hc Hchild).
  - intros node c child [].
  - intros t ts Ht Hts node c child Hin Hc Hchild.
    unfold preorder in *. simpl in *. apply in_app_iff in Hin. apply in_app_iff.
    destruct Hin as [Hin|Hin].
    + left. exact (Ht node c child Hin Hc Hchild).
    + right. exact (Hts node c child Hin Hc Hchild).
Qed.

Lemma preorder_length (nodes : list StepNode) :
  List.length (preorder nodes) = list_sum (map node_count nodes).
Proof.
  pattern nodes.
  apply StepNodes_nested_ind with
    (P := fun t => List.length (preorder_node t) = node_count t).
  - reflexivity.
  - intros l k w c i IH. simpl. f_equal. exact IH.
  - reflexivity.
  - intros t ts Ht Hts. unfold preorder in *. simpl.
    rewrite length_app, Ht, Hts. reflexivity.
Qed.

(** X9: [flattenStepNodes] drops no node and adds none: every tree of the
    input is in the result, the children of every node of the result are in
    the result, and the result has as many elements as the trees have
    nodes. *)
Theorem flattenStepNodes_lists_every_node_once (nodes : list StepNode) :
  (forall node, In node nodes -> In node (flattenStepNodes nodes)) /\
  (forall node c child,
      In node (flattenStepNodes nodes) -> children node = Some c -> In child c ->
      In child (flattenStepNodes nodes)) /\
  List.length (flattenStepNodes nodes) = list_sum (map node_count nodes).
Proof.
  rewrite flattenStepNodes_preorder. split; [|split].
  - intros node Hin. unfold preorder. apply in_flat_map.
    exists node. split; [exact Hin | apply preorder_node_self].
  - apply preorder_closed_under_children.
  - apply preorder_length.
Qed.

Lemma every_node_preorder (p : StepNode -> bool) (nodes : list StepNode) :
  forallb (every_node p) nodes = true -> forallb p (preorder nodes) = true.
Proof.
  pattern nodes.
  apply StepNodes_nested_ind with
    (P := fun t => every_node p t = true -> forallb p (preorder_node t) = true).
  - intros l k w i H. simpl in *. rewrite andb_true_r in H. rewrite H. reflexivity.
  - intros l k w c i IH H. simpl in *. apply andb_true_iff in H.
    destruct H as [Hp Hc]. rewrite Hp. exact (IH Hc).
  - reflexivity.
  - intros t ts Ht Hts H. unfold preorder in *. simpl in *.
    apply andb_true_iff in H. destruct H as [H1 H2].
    rewrite forallb_app, (Ht H1), (Hts H2). reflexivity.
Qed.

(** X10: in a tree whose nodes have exactly one of [work] and [children], as
    [parseStepsDef] builds them from a [StepsDef], the leaf nodes are the
    nodes without children: [getLeafNodes] is [flattenStepNodes] without the
    groups, and the two lengths differ by the number of groups. *)
Theorem getLeafNodes_drops_exactly_the_groups (nodes : list StepNode) :
  forallb (every_node exactly_one) nodes = true ->
  getLeafNodes nodes = filter (fun node => negb (has_children node)) (flattenStepNodes nodes) /\
  List.length (flattenStepNodes nodes) =
  List.length (getLeafNodes nodes) +
  List.length (filter has_children (flattenStepNodes nodes)).
Proof.
  intros Hone. apply every_node_preorder in Hone.
  rewrite getLeafNodes_flat_map, leaves_filter_preorder, flattenStepNodes_preorder.
  rewrite forallb_forall in Hone.
  assert (Hsame : filter has_work (preorder nodes) =
                  filter (fun node => negb (has_children node)) (preorder nodes)).
  { apply filter_ext_in. intros node Hin. specialize (Hone node Hin).
    unfold exactly_one in Hone.
    destruct (has_work node), (has_children node); try reflexivity; discriminate. }
  split; [exact Hsame|]. rewrite Hsame. clear Hone Hsame.
  induction (preorder nodes) as [|t ts IH]; simpl; [reflexivity|].
  destruct (has_children t); simpl; lia.
Qed.

Lemma getLeafNodes_drops_exactly_the_groups_witness :
  getLeafNodes
    [mkStepNode (VString "Build") "build" None
       (Some [mkStepNode (VString "Compile") "compile" (Some (VFunction 0)) None 1]) 0] =
  filter (fun node => negb (has_children node))
    (flattenStepNodes
       [mkStepNode (VString "Build") "build" None
          (Some [mkStepNode (VString "Compile") "compile" (Some (VFunction 0)) None 1]) 0]).
Proof.
  apply (getLeafNodes_drops_exactly_the_groups
           [mkStepNode (VString "Build") "build" None
              (Some [mkStepNode (VString "Compile") "compile" (Some (VFunction 0)) None 1]) 0]).
  reflexivity.
Defined.

(** ** More properties of generateLabel *)

(** Facts about single characters are checked on the 256 characters. *)
Ltac each_char c :=
  destruct c as [[] [] [] [] [] [] [] []]; vm_compute; try reflexivity; try discriminate.

Lemma toLowerCase_not_upper c : is_upper (char_toLowerCase c) = false.
Proof. each_char c. Qed.

Lemma toUpperCase_not_lower c : is_lower (char_toUpperCase c) = false.
Proof. each_char c. Qed.

Lemma toLowerCase_space c : is_space (char_toLowerCase c) = is_space c.
Proof. each_char c. Qed.

Lemma toUpperCase_space c : is_space (char_toUpperCase c) = is_space c.
Proof. each_char c. Qed.

Lemma toLowerCase_digit c : is_digit (char_toLowerCase c) = is_digit c.
Proof. each_char c. Qed.

Lemma toUpperCase_digit c : is_digit (char_toUpperCase c) = is_digit c.
Proof. each_char c. Qed.

Lemma lower_is_plain c :
  is_lower c = true ->
  is_upper c = false /\ is_digit c = false /\ is_space c = false /\
  is_upper (char_toUpperCase c) = true /\
  char_toLowerCase (char_toUpperCase c) = c.
Proof. each_char c; intros _; repeat split. Qed.

Lemma upper_is_plain c :
  is_upper c = true -> is_digit c = false /\ is_space c = false.
Proof. each_char c; intros _; repeat split. Qed.

Lemma toUpperCase_toLowerCase c :
  is_lower c = false -> char_toUpperCase (char_toLowerCase c) = c.
Proof. each_char c. Qed.

Lemma toLowerCase_fixed c : is_upper c = false -> char_toLowerCase c = c.
Proof. unfold char_toLowerCase. intros ->. reflexivity. Qed.

Lemma space_not_digit c : is_space c = true -> is_digit c = false.
Proof. each_char c. Qed.

Lemma space_not_upper c : is_space c = true -> is_upper c = false.
Proof. each_char c. Qed.

Lemma label_chars (name : string) :
  list_ascii_of_string (generateLabel name) =
  capitalize_first
    (collapse_spaces false
       (trim
          (map char_toLowerCase
             (space_before_digit_runs false
                (space_before_uppercase (list_ascii_of_string name)))))).
Proof.
  rewrite generateLabel_refines. unfold generateLabel_steps.
  apply list_ascii_of_string_of_list_ascii.
Qed.

Lemma trimStart_spaces s :
  exists sp, s = sp ++ trimStart s /\ forallb is_space sp = true.
Proof.
  induction s as [|c s (sp & Hs & Hsp)]; simpl.
  - exists []. auto.
  - destruct (is_space c) eqn:Hc.
    + exists (c :: sp). simpl. rewrite Hc, Hsp. split; [f_equal; exact Hs | reflexivity].
    + exists []. auto.
Qed.

Lemma forallb_rev (A : Type) (p : A -> bool) (l : list A) :
  forallb p (rev l) = forallb p l.
Proof.
  induction l as [|a l IH]; simpl; [reflexivity|].
  rewrite forallb_app, IH. simpl. rewrite andb_true_r. apply andb_comm.
Qed.

Lemma trimEnd_spaces s :
  exists sp, s = trimEnd s ++ sp /\ forallb is_space sp = true.
Proof.
  destruct (trimStart_spaces (rev s)) as (sp & Hs & Hsp).
  exists (rev sp). unfold trimEnd. split.
  - rewrite <- rev_app_distr, <- Hs, rev_involutive. reflexivity.
  - rewrite forallb_rev. exact Hsp.
Qed.

Lemma forallb_trim (p : ascii -> bool) s :
  forallb p s = true -> forallb p (trim s) = true.
Proof.
  intros H. unfold trim.
  destruct (trimStart_spaces s) as (sp1 & H1 & _).
  destruct (trimEnd_spaces (trimStart s)) as (sp2 & H2 & _).
  rewrite H1, H2, !forallb_app in H.
  apply andb_true_iff in H. destruct H as [_ H].
  apply andb_true_iff in H. destruct H as [H _]. exact H.
Qed.

Lemma forallb_collapse (p : ascii -> bool) s :
  p " "%char = true ->
  forall b, forallb p s = true -> forallb p (collapse_spaces b s) = true.
Proof.
  intros Hsp. induction s as [|c s IH]; intros b H; simpl in *; [reflexivity|].
  apply andb_true_iff in H. destruct H as [Hc Hs].
  destruct (is_space c).
  - destruct b; simpl; [|rewrite Hsp]; apply IH, Hs.
  - simpl. rewrite Hc. apply IH, Hs.
Qed.

Lemma trimEnd_cons_clean c s :
  is_space c = false -> trimEnd (c :: s) = c :: trimEnd s.
Proof.
  intros Hc. unfold trimEnd. simpl.
  rewrite trimStart_snoc by exact Hc. rewrite rev_app_distr. reflexivity.
Qed.

Lemma trimStart_all_spaces s : trimStart s = [] <-> forallb is_space s = true.
Proof.
  induction s as [|c s IH]; simpl; [tauto|].
  destruct (is_space c); simpl; [exact IH|]. split; discriminate.
Qed.

Lemma trim_all_spaces s : trim s = [] <-> forallb is_space s = true.
Proof.
  rewrite <- trimStart_all_spaces. unfold trim.
  pose proof (trimStart_clean s) as Hclean.
  destruct (trimStart s) as [|c t]; [split; reflexivity|].
  simpl in Hclean. rewrite trimEnd_cons_clean by exact Hclean.
  split; discriminate.
Qed.

Lemma label_capital_then_lower (name : string) :
  capital_then_lower (list_ascii_of_string (generateLabel name)) = true.
Proof.
  rewrite label_chars.
  set (t := map char_toLowerCase _).
  assert (Ht : forallb (fun a => negb (is_upper a)) t = true).
  { unfold t. apply forallb_forall. intros a Ha. apply in_map_iff in Ha.
    destruct Ha as (c & <- & _). rewrite toLowerCase_not_upper. reflexivity. }
  apply forallb_trim in Ht.
  apply (forallb_collapse (fun a => negb (is_upper a)) (trim t) eq_refl false) in Ht.
  destruct (collapse_spaces false (trim t)) as [|c r]; [reflexivity|].
  simpl in *. apply andb_true_iff in Ht. destruct Ht as [_ Hr].
  rewrite toUpperCase_not_lower, Hr. reflexivity.
Qed.

Lemma ends_clean_trimEnd s : s <> [] -> starts_clean s -> ends_clean (trimEnd s) = true.
Proof.
  intros Hs Hclean. destruct s as [|c s]; [congruence|]. simpl in Hclean.
  unfold ends_clean, trimEnd.
  pose proof (trimStart_clean (rev (c :: s))) as Hrev.
  assert (Hne : trimStart (rev (c :: s)) <> []).
  { simpl. rewrite trimStart_snoc by exact Hclean. destruct (trimStart (rev s)); discriminate. }
  destruct (trimStart (rev (c :: s))) as [|a u]; [congruence|].
  simpl in Hrev. simpl. rewrite last_last, Hrev. reflexivity.
Qed.

Lemma ends_clean_tail c s : s <> [] -> ends_clean (c :: s) = ends_clean s.
Proof. intros Hs. unfold ends_clean. destruct s; [congruence | reflexivity]. Qed.

Lemma collapse_well_spaced s :
  forall b, s <> [] -> ends_clean s = true ->
            well_spaced b (collapse_spaces b s) = true.
Proof.
  induction s as [|c s IH]; intros b Hne Hend; [congruence|].
  simpl. destruct (is_space c) eqn:Hc.
  - assert (Hs : s <> []).
    { intros ->. unfold ends_clean in Hend. simpl in Hend. rewrite Hc in Hend. discriminate. }
    rewrite ends_clean_tail in Hend by exact Hs.
    destruct b; simpl; [exact (IH true Hs Hend)|].
    exact (IH true Hs Hend).
  - simpl. rewrite Hc. destruct s as [|d s]; [reflexivity|].
    rewrite ends_clean_tail in Hend by discriminate.
    apply IH; [discriminate | exact Hend].
Qed.

Lemma label_normal_spacing (name : string) :
  normal_spacing (list_ascii_of_string (generateLabel name)) = true.
Proof.
  rewrite label_chars. set (t := map char_toLowerCase _).
  pose proof (trim_clean t) as Hclean.
  assert (Hend : trim t <> [] -> ends_clean (trim t) = true).
  { intros Hne. unfold trim in *. apply ends_clean_trimEnd; [|apply trimStart_clean].
    intros Hnil. rewrite Hnil in Hne. apply Hne. reflexivity. }
  destruct (trim t) as [|c r] eqn:Htrim; [reflexivity|].
  simpl in Hclean.
  pose proof (collapse_well_spaced (c :: r) false ltac:(discriminate) (Hend ltac:(discriminate)))
    as Hws.
  assert (Hcollapse : collapse_spaces false (c :: r) = c :: collapse_spaces false r)
    by (simpl; rewrite Hclean; reflexivity).
  rewrite Hcollapse in *. cbn [well_spaced] in Hws. rewrite Hclean in Hws.
  cbn [capitalize_first normal_spacing well_spaced].
  rewrite toUpperCase_space, Hclean. exact Hws.
Qed.

Lemma forallb_space_before_uppercase s :
  forallb is_space (space_before_uppercase s) = forallb is_space s.
Proof.
  induction s as [|c s IH]; [reflexivity|].
  unfold space_before_uppercase in *. simpl. rewrite forallb_app, IH.
  destruct (is_upper c); simpl; rewrite ?andb_true_r; reflexivity.
Qed.

Lemma forallb_space_before_digit_runs s :
  forall b, forallb is_space (space_before_digit_runs b s) = forallb is_space s.
Proof.
  induction s as [|c s IH]; intros b; [reflexivity|].
  simpl. destruct (is_digit c); [|simpl; rewrite IH; reflexivity].
  rewrite forallb_app, IH. destruct b; simpl; rewrite ?andb_true_r; reflexivity.
Qed.

Lemma forallb_space_toLowerCase s :
  forallb is_space (map char_toLowerCase s) = forallb is_space s.
Proof.
  induction s as [|c s IH]; [reflexivity|].
  simpl. rewrite toLowerCase_space, IH. reflexivity.
Qed.

(** X12: the label is empty exactly when the name has no character other than
    whitespace. *)
Theorem generateLabel_empty_iff_blank (name : string) :
  generateLabel name = ""%string <->
  forallb is_space (list_ascii_of_string name) = true.
Proof.
  rewrite <- forallb_space_before_uppercase.
  rewrite <- (forallb_space_before_digit_runs _ false).
  rewrite <- forallb_space_toLowerCase, <- trim_all_spaces.
  pose proof (label_chars name) as Hchars.
  set (t := map char_toLowerCase _) in *.
  pose proof (trim_clean t) as Hclean.
  split.
  - intros Hempty. rewrite Hempty in Hchars. simpl in Hchars.
    destruct (trim t) as [|c r]; [reflexivity|].
    simpl in Hclean, Hchars. rewrite Hclean in Hchars. discriminate.
  - intros Htrim. rewrite Htrim in Hchars. simpl in Hchars.
    rewrite <- (string_of_list_ascii_of_string (generateLabel name)), Hchars.
    reflexivity.
Qed.

Lemma well_spaced_starts s : well_spaced true s = true -> trimStart s = s.
Proof.
  destruct s as [|c s]; [reflexivity|]. simpl.
  destruct (is_space c); [|reflexivity].
  rewrite andb_false_r. discriminate.
Qed.

Lemma well_spaced_ends s :
  forall b, well_spaced b s = true -> s <> [] -> ends_clean s = true.
Proof.
  induction s as [|c s IH]; intros b Hws Hne; [congruence|].
  simpl in Hws. destruct s as [|d s].
  - unfold ends_clean. simpl. destruct (is_space c); [|reflexivity].
    simpl in Hws. rewrite andb_false_r in Hws. discriminate.
  - rewrite ends_clean_tail by discriminate.
    destruct (is_space c).
    + apply andb_true_iff in Hws. destruct Hws as [_ Hws].
      exact (IH true Hws ltac:(discriminate)).
    + exact (IH false Hws ltac:(discriminate)).
Qed.

Lemma ends_clean_trimEnd_id s : ends_clean s = true -> trimEnd s = s.
Proof.
  intros Hend. destruct s as [|c s] using rev_ind; [reflexivity|].
  unfold ends_clean in Hend. rewrite last_last in Hend.
  apply negb_true_iff in Hend.
  unfold trimEnd. rewrite rev_app_distr. simpl. rewrite Hend. simpl.
  rewrite rev_involutive. reflexivity.
Qed.

Lemma well_spaced_trim s : well_spaced true s = true -> trim s = s.
Proof.
  intros Hws. unfold trim. rewrite (well_spaced_starts s Hws).
  destruct s as [|c s]; [reflexivity|].
  apply ends_clean_trimEnd_id, (well_spaced_ends (c :: s) true Hws). discriminate.
Qed.

Lemma well_spaced_collapse s :
  forall b, well_spaced b s = true -> collapse_spaces b s = s.
Proof.
  induction s as [|c s IH]; intros b Hws; [reflexivity|].
  simpl in *. destruct (is_space c).
  - apply andb_true_iff in Hws. destruct Hws as [Hc Hws].
    apply andb_true_iff in Hc. destruct Hc as [Hc Hb].
    apply negb_true_iff in Hb. subst b. apply Ascii.eqb_eq in Hc. subst c.
    simpl. rewrite (IH true Hws). reflexivity.
  - rewrite (IH false Hws). reflexivity.
Qed.

Lemma well_spaced_collapse_start s :
  well_spaced true s = true -> collapse_spaces false s = s.
Proof.
  intros Hws. destruct s as [|c s]; [reflexivity|].
  pose proof (well_spaced_collapse (c :: s) true Hws) as H.
  simpl in *. destruct (is_space c); [|exact H].
  rewrite andb_false_r in Hws. discriminate.
Qed.

Lemma space_before_uppercase_app s t :
  space_before_uppercase (s ++ t) = space_before_uppercase s ++ space_before_uppercase t.
Proof. apply flat_map_app. Qed.

Lemma space_before_uppercase_none s :
  forallb (fun a => negb (is_upper a)) s = true -> space_before_uppercase s = s.
Proof.
  induction s as [|c s IH]; [reflexivity|]. simpl. intros H.
  apply andb_true_iff in H. destruct H as [Hc Hs]. apply negb_true_iff in Hc.
  unfold space_before_uppercase in *. simpl. rewrite Hc, (IH Hs). reflexivity.
Qed.

Lemma lower_not_upper s :
  forallb is_lower s = true -> forallb (fun a => negb (is_upper a)) s = true.
Proof.
  intros H. rewrite forallb_forall in *. intros a Ha.
  destruct (lower_is_plain a (H a Ha)) as (-> & _). reflexivity.
Qed.

Lemma space_before_digit_runs_none s :
  forall b, forallb (fun a => negb (is_digit a)) s = true ->
            space_before_digit_runs b s = s.
Proof.
  induction s as [|c s IH]; intros b H; [reflexivity|]. simpl in *.
  apply andb_true_iff in H. destruct H as [Hc Hs]. apply negb_true_iff in Hc.
  rewrite Hc, (IH false Hs). reflexivity.
Qed.

(** The characters of a camelCase name after the first pass: the words, each
    later one after a space and capitalized. *)
Lemma camelCase_spaced (others : list (list ascii)) :
  forallb is_word others = true ->
  space_before_uppercase (flat_map capitalize_first others) =
  flat_map (fun w => " "%char :: capitalize_first w) others.
Proof.
  induction others as [|w ws IH]; [reflexivity|]. simpl. intros H.
  apply andb_true_iff in H. destruct H as [Hw Hws].
  rewrite space_before_uppercase_app, (IH Hws).
  replace (space_before_uppercase (capitalize_first w))
    with (" "%char :: capitalize_first w); [reflexivity|].
  unfold is_word in Hw. apply andb_true_iff in Hw. destruct Hw as [Hlen Hlow].
  destruct w as [|c w]; [discriminate|]. simpl in Hlow.
  apply andb_true_iff in Hlow. destruct Hlow as [Hc Hlow].
  destruct (lower_is_plain c Hc) as (_ & _ & _ & Hup & _).
  change (space_before_uppercase (capitalize_first (c :: w)))
    with ((if is_upper (char_toUpperCase c)
           then [" "%char; char_toUpperCase c] else [char_toUpperCase c])
          ++ space_before_uppercase w).
  rewrite Hup, (space_before_uppercase_none w (lower_not_upper w Hlow)).
  reflexivity.
Qed.

Lemma camelCase_no_digit (others : list (list ascii)) :
  forallb is_word others = true ->
  forallb (fun a => negb (is_digit a))
    (flat_map (fun w => " "%char :: capitalize_first w) others) = true.
Proof.
  induction others as [|w ws IH]; [reflexivity|]. simpl. intros H.
  apply andb_true_iff in H. destruct H as [Hw Hws].
  rewrite forallb_app, (IH Hws), andb_true_r.
  unfold is_word in Hw. apply andb_true_iff in Hw. destruct Hw as [Hlen Hlow].
  destruct w as [|c w]; [discriminate|]. simpl in *.
  apply andb_true_iff in Hlow. destruct Hlow as [Hc Hlow].
  destruct (lower_is_plain c Hc) as (_ & _ & _ & Hup & _).
  destruct (upper_is_plain _ Hup) as [-> _]. simpl.
  rewrite forallb_forall in *. intros a Ha.
  destruct (lower_is_plain a (Hlow a Ha)) as (_ & -> & _). reflexivity.
Qed.

Lemma word_no_digit w :
  forallb is_lower w = true -> forallb (fun a => negb (is_digit a)) w = true.
Proof.
  intros H. rewrite forallb_forall in *. intros a Ha.
  destruct (lower_is_plain a (H a Ha)) as (_ & -> & _). reflexivity.
Qed.

Lemma word_toLowerCase w :
  forallb is_lower w = true -> map char_toLowerCase w = w.
Proof.
  induction w as [|c w IH]; [reflexivity|]. simpl. intros H.
  apply andb_true_iff in H. destruct H as [Hc Hw].
  destruct (lower_is_plain c Hc) as (Hup & _).
  rewrite (toLowerCase_fixed c Hup), (IH Hw). reflexivity.
Qed.

Lemma camelCase_lowered (others : list (list ascii)) :
  forallb is_word others = true ->
  map char_toLowerCase (flat_map (fun w => " "%char :: capitalize_first w) others) =
  flat_map (cons " "%char) others.
Proof.
  induction others as [|w ws IH]; [reflexivity|]. simpl. intros H.
  apply andb_true_iff in H. destruct H as [Hw Hws].
  rewrite map_app, (IH Hws).
  replace (map char_toLowerCase (capitalize_first w)) with w; [reflexivity|].
  unfold is_word in Hw. apply andb_true_iff in Hw. destruct Hw as [Hlen Hlow].
  destruct w as [|c w]; [discriminate|]. simpl in *.
  apply andb_true_iff in Hlow. destruct Hlow as [Hc Hlow].
  destruct (lower_is_plain c Hc) as (_ & _ & _ & _ & Hback).
  rewrite Hback, (word_toLowerCase w Hlow). reflexivity.
Qed.

Lemma well_spaced_word w tail :
  forallb is_lower w = true -> w <> [] ->
  forall b, well_spaced b (w ++ tail) = well_spaced false tail.
Proof.
  induction w as [|c w IH]; intros Hlow Hne b; [congruence|]. simpl in *.
  apply andb_true_iff in Hlow. destruct Hlow as [Hc Hlow].
  destruct (lower_is_plain c Hc) as (_ & _ & -> & _).
  destruct w as [|d w]; [reflexivity|].
  apply IH; [exact Hlow | discriminate].
Qed.

Lemma well_spaced_sentence (others : list (list ascii)) :
  forallb is_word others = true ->
  well_spaced false (flat_map (cons " "%char) others) = true.
Proof.
  induction others as [|w ws IH]; [reflexivity|]. simpl. intros H.
  apply andb_true_iff in H. destruct H as [Hw Hws].
  unfold is_word in Hw. apply andb_true_iff in Hw. destruct Hw as [Hlen Hlow].
  rewrite well_spaced_word; [exact (IH Hws) | exact Hlow |].
  destruct w; [discriminate | discriminate].
Qed.

(** The five steps on the characters of a camelCase name give the sentence
    of its words. *)
Lemma camelCase_steps (first : list ascii) (others : list (list ascii)) :
  is_word first = true ->
  forallb is_word others = true ->
  capitalize_first
    (collapse_spaces false
       (trim
          (map char_toLowerCase
             (space_before_digit_runs false
                (space_before_uppercase (camelCase first others)))))) =
  sentence first others.
Proof.
  intros Hfirst Hothers.
  unfold is_word in Hfirst. apply andb_true_iff in Hfirst.
  destruct Hfirst as [Hlen Hlow].
  assert (Hne : first <> []) by (destruct first; [discriminate | discriminate]).
  unfold camelCase.
  rewrite space_before_uppercase_app, (camelCase_spaced others Hothers).
  rewrite (space_before_uppercase_none first (lower_not_upper first Hlow)).
  rewrite space_before_digit_runs_none
    by (rewrite forallb_app, (word_no_digit first Hlow), (camelCase_no_digit others Hothers);
        reflexivity).
  rewrite map_app, (word_toLowerCase first Hlow), (camelCase_lowered others Hothers).
  assert (Hws : well_spaced true (first ++ flat_map (cons " "%char) others) = true).
  { rewrite (well_spaced_word first _ Hlow Hne). apply well_spaced_sentence, Hothers. }
  rewrite (well_spaced_trim _ Hws), (well_spaced_collapse_start _ Hws).
  unfold sentence. destruct first as [|c w]; [congruence | reflexivity].
Qed.

(** X13: a camelCase name is split into its words: for a name made of a first
    word of lowercase letters followed by words of lowercase letters whose
    first letter is in uppercase, the label is the first word with its first
    letter in uppercase, followed by the other words in lowercase, separated
    by single spaces. *)
Theorem generateLabel_splits_camelCase
  (first : list ascii) (others : list (list ascii)) :
  is_word first = true ->
  forallb is_word others = true ->
  generateLabel (string_of_list_ascii (camelCase first others)) =
  string_of_list_ascii (sentence first others).
Proof.
  intros Hfirst Hothers.
  rewrite generateLabel_refines. unfold generateLabel_steps. f_equal.
  rewrite list_ascii_of_string_of_list_ascii.
  apply camelCase_steps; [exact Hfirst | exact Hothers].
Qed.

Lemma generateLabel_splits_camelCase_witness :
  generateLabel
    (string_of_list_ascii
       (camelCase (list_ascii_of_string "init")
          [list_ascii_of_string "board"; list_ascii_of_string "state"])) =
  string_of_list_ascii
    (sentence (list_ascii_of_string "init")
       [list_ascii_of_string "board"; list_ascii_of_string "state"]).
Proof.
  apply (generateLabel_splits_camelCase (list_ascii_of_string "init")
           [list_ascii_of_string "board"; list_ascii_of_string "state"]).
  - reflexivity.
  - reflexivity.
Defined.

Lemma digits_spaced_weaken s : forall ok, digits_spaced ok s = true -> digits_spaced true s = true.
Proof.
  destruct s as [|c s]; intros ok H; [reflexivity|]. simpl in *.
  apply andb_true_iff in H. destruct H as [_ H]. rewrite H.
  destruct (is_digit c); reflexivity.
Qed.

Lemma digits_spaced_after_insertion s :
  forall after_digit ok,
    (after_digit = true -> ok = true) ->
    digits_spaced ok (space_before_digit_runs after_digit s) = true.
Proof.
  induction s as [|c s IH]; intros dg ok Hok; [reflexivity|].
  simpl. destruct (is_digit c) eqn:Hc.
  - destruct dg; simpl; rewrite Hc; simpl.
    + rewrite (Hok eq_refl). simpl. apply IH. auto.
    + apply IH. auto.
  - simpl. rewrite Hc. simpl. apply IH. discriminate.
Qed.

Lemma digits_spaced_toLowerCase s :
  forall ok, digits_spaced ok (map char_toLowerCase s) = digits_spaced ok s.
Proof.
  induction s as [|c s IH]; intros ok; [reflexivity|].
  simpl. rewrite toLowerCase_digit, toLowerCase_space, IH. reflexivity.
Qed.

Lemma digits_spaced_trimStart s :
  forall ok, digits_spaced ok s = true -> digits_spaced true (trimStart s) = true.
Proof.
  induction s as [|c s IH]; intros ok H; [reflexivity|].
  simpl in *. destruct (is_space c) eqn:Hc.
  - apply andb_true_iff in H. destruct H as [_ H].
    rewrite orb_true_r in H. exact (IH true H).
  - apply (digits_spaced_weaken (c :: s) ok). simpl. rewrite Hc. exact H.
Qed.

Lemma digits_spaced_prefix s t :
  forall ok, digits_spaced ok (s ++ t) = true -> digits_spaced ok s = true.
Proof.
  induction s as [|c s IH]; intros ok H; [reflexivity|].
  simpl in *. apply andb_true_iff in H. destruct H as [Hc H].
  rewrite Hc. exact (IH _ H).
Qed.

Lemma digits_spaced_collapse s :
  forall after_space ok,
    (after_space = true -> ok = true) ->
    digits_spaced ok s = true ->
    digits_spaced ok (collapse_spaces after_space s) = true.
Proof.
  induction s as [|c s IH]; intros bs ok Hok H; [reflexivity|].
  simpl in *. apply andb_true_iff in H. destruct H as [Hc H].
  destruct (is_space c) eqn:Hsp.
  - rewrite orb_true_r in H. destruct bs; simpl.
    + rewrite (Hok eq_refl). apply IH; auto.
    + apply IH; auto.
  - simpl. rewrite Hc, Hsp. apply IH; [discriminate | exact H].
Qed.

Lemma label_digits_spaced (name : string) :
  digits_spaced true (list_ascii_of_string (generateLabel name)) = true.
Proof.
  rewrite label_chars.
  set (u := space_before_uppercase _).
  pose proof (digits_spaced_after_insertion u false true ltac:(discriminate)) as H.
  rewrite <- digits_spaced_toLowerCase in H.
  set (t := map char_toLowerCase _) in *.
  apply digits_spaced_trimStart in H.
  destruct (trimEnd_spaces (trimStart t)) as (sp & Hsp & _).
  rewrite Hsp in H. apply digits_spaced_prefix in H. fold (trim t) in H.
  apply (digits_spaced_collapse (trim t) false true ltac:(discriminate)) in H.
  destruct (collapse_spaces false (trim t)) as [|c r]; [reflexivity|].
  simpl in *. rewrite toUpperCase_digit, toUpperCase_space. exact H.
Qed.

(** The passes of [generateLabel] after the first character of a string in
    label form give the string back: [after_space] and [after_digit] tell what
    the previous character is. *)
Lemma label_form_rest_fixed (r : list ascii) :
  forall after_space after_digit,
    forallb (fun a => negb (is_upper a)) r = true ->
    well_spaced after_space r = true ->
    digits_spaced (after_digit || after_space) r = true ->
    collapse_spaces after_space
      (map char_toLowerCase (space_before_digit_runs after_digit r)) = r.
Proof.
  induction r as [|c r IH]; intros bs dg Hup Hws Hds; [reflexivity|].
  simpl in Hup, Hws, Hds.
  apply andb_true_iff in Hup. destruct Hup as [Hc Hup]. apply negb_true_iff in Hc.
  apply andb_true_iff in Hds. destruct Hds as [Hok Hds].
  cbn [space_before_digit_runs].
  destruct (is_digit c) eqn:Hdigit.
  - assert (Hsp : is_space c = false).
    { destruct (is_space c) eqn:Hsp; [|reflexivity].
      rewrite (space_not_digit c Hsp) in Hdigit. discriminate. }
    rewrite Hsp in Hws. simpl in Hds.
    assert (Hrest : collapse_spaces false
                      (map char_toLowerCase (space_before_digit_runs true r)) = r)
      by (apply IH; assumption).
    destruct dg; simpl.
    + rewrite (toLowerCase_fixed c Hc), Hsp, Hrest. reflexivity.
    + simpl in Hok. subst bs. simpl.
      rewrite (toLowerCase_fixed c Hc), Hsp, Hrest. reflexivity.
  - simpl. rewrite (toLowerCase_fixed c Hc). simpl in Hds.
    destruct (is_space c) eqn:Hsp.
    + apply andb_true_iff in Hws. destruct Hws as [Hcb Hws].
      apply andb_true_iff in Hcb. destruct Hcb as [Heq Hb].
      apply negb_true_iff in Hb. subst bs. apply Ascii.eqb_eq in Heq. subst c.
      simpl. f_equal. apply IH; assumption.
    + f_equal. apply IH; assumption.
Qed.

Lemma collapse_after_trimStart s :
  collapse_spaces false (trimStart s) = collapse_spaces true s.
Proof.
  induction s as [|c s IH]; [reflexivity|].
  simpl. destruct (is_space c) eqn:Hc; [exact IH|].
  simpl. rewrite Hc. reflexivity.
Qed.

Lemma ends_clean_trimStart s : ends_clean s = true -> ends_clean (trimStart s) = true.
Proof.
  induction s as [|c s IH]; intros Hend; [exact Hend|].
  simpl. destruct (is_space c) eqn:Hc; [|exact Hend].
  destruct s as [|d s].
  - unfold ends_clean in Hend. simpl in Hend. rewrite Hc in Hend. discriminate.
  - rewrite ends_clean_tail in Hend by discriminate. exact (IH Hend).
Qed.

Lemma last_app_nonempty (A : Type) (l l' : list A) (d : A) :
  l' <> [] -> last (l ++ l') d = last l' d.
Proof.
  intros Hne. induction l as [|a l IH]; [reflexivity|].
  simpl. rewrite IH. destruct (l ++ l') eqn:Happ; [|reflexivity].
  apply app_eq_nil in Happ. destruct Happ as [_ Hnil]. congruence.
Qed.

Lemma last_map (A B : Type) (f : A -> B) (l : list A) (d : A) :
  last (map f l) (f d) = f (last l d).
Proof.
  induction l as [|a l IH]; [reflexivity|].
  simpl. rewrite IH. destruct l; reflexivity.
Qed.

Lemma last_space_before_uppercase s d :
  s <> [] -> last (space_before_uppercase s) d = last s d.
Proof.
  induction s as [|c s IH]; intros Hne; [congruence|].
  unfold space_before_uppercase in *. cbn [flat_map].
  destruct s as [|e s].
  - simpl. destruct (is_upper c); reflexivity.
  - rewrite last_app_nonempty by (cbn [flat_map]; destruct (is_upper e); discriminate).
    rewrite IH by discriminate. reflexivity.
Qed.

Lemma space_before_digit_runs_nonempty s b :
  s <> [] -> space_before_digit_runs b s <> [].
Proof.
  destruct s as [|c s]; [congruence|]. intros _. simpl.
  destruct (is_digit c); [destruct b|]; discriminate.
Qed.

Lemma last_space_before_digit_runs s d :
  forall b, s <> [] -> last (space_before_digit_runs b s) d = last s d.
Proof.
  induction s as [|c s IH]; intros b Hne; [congruence|].
  cbn [space_before_digit_runs]. destruct s as [|e s].
  - simpl. destruct (is_digit c); [destruct b|]; reflexivity.
  - assert (Hrest : forall b', space_before_digit_runs b' (e :: s) <> [])
      by (intros b'; apply space_before_digit_runs_nonempty; discriminate).
    destruct (is_digit c).
    + rewrite last_app_nonempty by apply Hrest. rewrite IH by discriminate. reflexivity.
    + change (last (c :: space_before_digit_runs false (e :: s)) d)
        with (last ([c] ++ space_before_digit_runs false (e :: s)) d).
      rewrite last_app_nonempty by apply Hrest. rewrite IH by discriminate. reflexivity.
Qed.

Lemma ends_clean_passes s :
  s <> [] -> ends_clean s = true ->
  ends_clean
    (map char_toLowerCase (space_before_digit_runs false (space_before_uppercase s))) = true.
Proof.
  intros Hne Hend. unfold ends_clean in *.
  assert (Hu : space_before_uppercase s <> []).
  { destruct s as [|c s]; [congruence|]. unfold space_before_uppercase. simpl.
    destruct (is_upper c); discriminate. }
  change "x"%char with (char_toLowerCase "x"%char).
  rewrite last_map, toLowerCase_space.
  rewrite last_space_before_digit_runs by exact Hu.
  rewrite last_space_before_uppercase by exact Hne. exact Hend.
Qed.

Lemma label_form_fixed (s : list ascii) :
  label_form s = true ->
  capitalize_first
    (collapse_spaces false
       (trim
          (map char_toLowerCase
             (space_before_digit_runs false (space_before_uppercase s))))) = s.
Proof.
  unfold label_form. intros H.
  apply andb_true_iff in H. destruct H as [H Hds].
  apply andb_true_iff in H. destruct H as [Hws Hcap].
  destruct s as [|c r]; [reflexivity|].
  cbn [normal_spacing] in Hws. cbn [capital_then_lower] in Hcap.
  apply andb_true_iff in Hcap. destruct Hcap as [Hlow Hup].
  apply negb_true_iff in Hlow.
  pose proof (well_spaced_ends (c :: r) true Hws ltac:(discriminate)) as Hend.
  apply (ends_clean_passes (c :: r) ltac:(discriminate)) in Hend.
  set (x := map char_toLowerCase _) in *.
  unfold trim.
  rewrite (ends_clean_trimEnd_id _ (ends_clean_trimStart x Hend)).
  rewrite collapse_after_trimStart.
  cbn [well_spaced] in Hws. cbn [digits_spaced] in Hds.
  destruct (is_space c) eqn:Hsp; [rewrite andb_false_r in Hws; discriminate|].
  apply andb_true_iff in Hds. destruct Hds as [_ Hds]. rewrite orb_false_r in Hds.
  assert (Hx : x = map char_toLowerCase
                     (space_before_digit_runs false
                        ((if is_upper c then [" "%char; c] else [c]) ++ r))).
  { unfold x, space_before_uppercase. cbn [flat_map].
    fold (space_before_uppercase r).
    rewrite (space_before_uppercase_none r Hup). reflexivity. }
  rewrite Hx. clear Hx Hend x.
  destruct (is_upper c) eqn:Hupper.
  - destruct (upper_is_plain c Hupper) as [Hdigit _].
    rewrite Hdigit in Hds.
    cbn [app space_before_digit_runs]. rewrite Hdigit.
    change (is_digit " "%char) with false.
    cbn [map collapse_spaces]. rewrite !toLowerCase_space, Hsp.
    change (is_space " "%char) with true. cbn [app].
    rewrite (label_form_rest_fixed r false false Hup Hws Hds).
    cbn [capitalize_first]. rewrite (toUpperCase_toLowerCase c Hlow). reflexivity.
  - cbn [app space_before_digit_runs].
    destruct (is_digit c) eqn:Hdigit.
    + cbn [app map collapse_spaces]. rewrite !toLowerCase_space, Hsp.
      change (is_space " "%char) with true. cbn [app].
      rewrite (label_form_rest_fixed r false true Hup Hws Hds).
      cbn [capitalize_first]. rewrite (toUpperCase_toLowerCase c Hlow). reflexivity.
    + cbn [map collapse_spaces]. rewrite !toLowerCase_space, Hsp.
      rewrite (label_form_rest_fixed r false false Hup Hws Hds).
      cbn [capitalize_first]. rewrite (toUpperCase_toLowerCase c Hlow). reflexivity.
Qed.

Lemma label_has_label_form (name : string) :
  label_form (list_ascii_of_string (generateLabel name)) = true.
Proof.
  unfold label_form.
  rewrite label_normal_spacing, label_capital_then_lower, label_digits_spaced.
  reflexivity.
Qed.

Lemma label_form_generateLabel (name : string) :
  label_form (list_ascii_of_string name) = true -> generateLabel name = name.
Proof.
  intros Hform.
  rewrite <- (string_of_list_ascii_of_string (generateLabel name)), label_chars.
  rewrite (label_form_fixed _ Hform). apply string_of_list_ascii_of_string.
Qed.

(** X11: the form of a label: it has no whitespace at its ends and whitespace
    inside only as single spaces; its first character is not a lowercase
    letter and no later character is an uppercase letter; and every digit
    follows a digit or a space, or comes first. *)
Theorem generateLabel_gives_label_form (name : string) :
  normal_spacing (list_ascii_of_string (generateLabel name)) = true /\
  capital_then_lower (list_ascii_of_string (generateLabel name)) = true /\
  digits_spaced true (list_ascii_of_string (generateLabel name)) = true.
Proof.
  split; [apply label_normal_spacing|].
  split; [apply label_capital_then_lower | apply label_digits_spaced].
Qed.

(** X14: the names that [generateLabel] leaves unchanged are exactly the
    strings in label form. *)
Theorem generateLabel_fixed_points (name : string) :
  generateLabel name = name <-> label_form (list_ascii_of_string name) = true.
Proof.
  split.
  - intros Hfix. rewrite <- Hfix. apply label_has_label_form.
  - apply label_form_generateLabel.
Qed.

(** X15: [generateLabel] is idempotent: the label of a label is the label. *)
Theorem generateLabel_idempotent (name : string) :
  generateLabel (generateLabel name) = generateLabel name.
Proof. apply label_form_generateLabel, label_has_label_form. Qed.

(** ** Properties of createProgressCallback *)

Module ProgressCallbackFacts.
Import ProgressCallback.

Lemma callback_started isTty st info : started (fst (callback isTty st info)) = true.
Proof. unfold callback. destruct (phase_changes st info); reflexivity. Qed.

Lemma callback_bar_calls isTty st info :
  exists step,
    is_progress step = true /\
    filter is_bar_call (snd (callback isTty st info)) = start_once st info ++ [step].
Proof.
  unfold callback, start_once.
  destruct (phase_changes st info) as [p|]; simpl.
  - exists (BarSetPhase p (current info) (total info)). split; [reflexivity|].
    destruct (lastPhase st), isTty, (started st); reflexivity.
  - exists (BarUpdate (current info)). split; [reflexivity|].
    destruct (started st); reflexivity.
Qed.

Lemma callbacks_cons isTty st info infos :
  callbacks isTty st (info :: infos) =
  (fst (callbacks isTty (fst (callback isTty st info)) infos),
   snd (callback isTty st info) ++
   snd (callbacks isTty (fst (callback isTty st info)) infos)).
Proof.
  simpl. destruct (callback isTty st info) as [st1 e1]. simpl.
  destruct (callbacks isTty st1 infos) as [st2 e2]. reflexivity.
Qed.

Lemma callbacks_started_steps isTty infos :
  forall st,
    started st = true ->
    started (fst (callbacks isTty st infos)) = true /\
    exists steps,
      forallb is_progress steps = true /\
      List.length steps = List.length infos /\
      filter is_bar_call (snd (callbacks isTty st infos)) = steps.
Proof.
  induction infos as [|info infos IH]; intros st Hst.
  - split; [exact Hst|]. exists []. auto.
  - rewrite callbacks_cons. cbn [fst snd].
    destruct (IH (fst (callback isTty st info)) (callback_started isTty st info))
      as (Hst' & steps & Hsteps & Hlen & Hcalls).
    split; [exact Hst'|].
    destruct (callback_bar_calls isTty st info) as (step & Hstep & Hcall).
    unfold start_once in Hcall. rewrite Hst in Hcall.
    exists (step :: steps). simpl. rewrite Hstep, Hsteps, Hlen.
    repeat split. rewrite filter_app, Hcall, Hcalls. reflexivity.
Qed.

End ProgressCallbackFacts.

(** X16: the life of the progress bar in a use of [createProgressCallback]:
    without a call of the callback the bar is neither started nor stopped;
    otherwise it is started exactly once, with the values of the first call
    and before anything else, then gets exactly one [setPhase] or [update]
    per call, and [complete] stops it with [clearOnComplete]. *)
Theorem progress_bar_started_once_and_stopped
  (isTty : bool) (options : ProgressCallback.Options)
  (infos : list ProgressCallback.ProgressInfo) :
  exists steps,
    forallb ProgressCallback.is_progress steps = true /\
    List.length steps = List.length infos /\
    filter ProgressCallback.is_bar_call (ProgressCallback.session isTty options infos) =
    match infos with
    | [] => []
    | first :: _ =>
        ProgressCallback.BarStart
          (ProgressCallback.current first) (ProgressCallback.total first)
        :: steps ++ [ProgressCallback.BarStop (ProgressCallback.clearOnComplete options)]
    end.
Proof.
  unfold ProgressCallback.session, ProgressCallback.createProgressCallback.
  destruct infos as [|info infos].
  - exists []. simpl. destruct isTty; auto.
  - set (st0 := ProgressCallback.mkState None false).
    rewrite ProgressCallbackFacts.callbacks_cons.
    destruct (ProgressCallbackFacts.callbacks_started_steps isTty infos
                (fst (ProgressCallback.callback isTty st0 info))
                (ProgressCallbackFacts.callback_started isTty st0 info))
      as (Hst & steps & Hsteps & Hlen & Hcalls).
    destruct (ProgressCallbackFacts.callback_bar_calls isTty st0 info)
      as (step & Hstep & Hcall).
    exists (step :: steps). simpl List.length. rewrite Hlen.
    split; [simpl; rewrite Hstep; exact Hsteps|]. split; [reflexivity|].
    rewrite !filter_app, Hcall, Hcalls.
    unfold ProgressCallback.complete. rewrite Hst.
    destruct isTty; simpl; rewrite <- ?app_assoc; reflexivity.
Qed.

Module ProgressCallbackPhases.
Import ProgressCallback.

Lemma announced_app e1 e2 : announced (e1 ++ e2) = announced e1 ++ announced e2.
Proof.
  induction e1 as [|e e1 IH]; [reflexivity|].
  destruct e; simpl; rewrite IH; reflexivity.
Qed.

Lemma callback_announced isTty st info :
  announced (snd (callback isTty st info)) =
  match phase_changes st info with Some p => [p] | None => [] end.
Proof.
  unfold callback, start_once. destruct (phase_changes st info) as [p|]; simpl.
  - rewrite announced_app. destruct (lastPhase st), isTty, (started st); reflexivity.
  - destruct (started st); reflexivity.
Qed.

Lemma callback_lastPhase isTty st info :
  lastPhase (fst (callback isTty st info)) =
  match phase_changes st info with Some p => Some p | None => lastPhase st end.
Proof. unfold callback. destruct (phase_changes st info); reflexivity. Qed.

Lemma callback_writes isTty st info :
  filter is_write (snd (callback isTty st info)) =
  match phase_changes st info, lastPhase st with
  | Some _, Some _ => if isTty then [WriteNewline] else []
  | _, _ => []
  end.
Proof.
  unfold callback, start_once. destruct (phase_changes st info) as [p|]; simpl.
  - destruct (lastPhase st), isTty, (started st); reflexivity.
  - destruct (lastPhase st), (started st); reflexivity.
Qed.

Lemma callbacks_writes isTty infos :
  forall st,
    filter is_write (snd (callbacks isTty st infos)) =
    if isTty
    then repeat WriteNewline
           (List.length (announced (snd (callbacks isTty st infos)))
            - match lastPhase st with Some _ => 0 | None => 1 end)
    else [].
Proof.
  induction infos as [|info infos IH]; intros st.
  - simpl. destruct isTty; reflexivity.
  - rewrite ProgressCallbackFacts.callbacks_cons. cbn [fst snd].
    rewrite filter_app, announced_app, length_app, IH.
    rewrite callback_writes, callback_announced, callback_lastPhase.
    destruct (phase_changes st info) as [p|].
    + destruct (lastPhase st), isTty; simpl; rewrite ?Nat.sub_0_r; reflexivity.
    + destruct (lastPhase st), isTty; reflexivity.
Qed.

Lemma phase_changes_new st info p :
  phase_changes st info = Some p ->
  negb (String.eqb p "") = true /\
  negb (match lastPhase st with Some q => String.eqb p q | None => false end) = true.
Proof.
  unfold phase_changes. destruct (phase info) as [q|]; [|discriminate].
  destruct (negb (String.eqb q "")) eqn:H1; [|discriminate].
  destruct (negb _) eqn:H2 in |- *; [|discriminate].
  intros H; inversion H; subst. auto.
Qed.

Lemma callbacks_no_repeat isTty infos :
  forall st,
    no_repeat (lastPhase st) (announced (snd (callbacks isTty st infos))) = true /\
    forallb (fun p => negb (String.eqb p "")) (announced (snd (callbacks isTty st infos)))
    = true.
Proof.
  induction infos as [|info infos IH]; intros st; [auto|].
  rewrite ProgressCallbackFacts.callbacks_cons. cbn [fst snd].
  rewrite announced_app, callback_announced.
  specialize (IH (fst (callback isTty st info))).
  rewrite callback_lastPhase in IH.
  destruct (phase_changes st info) as [p|] eqn:Hp; [|exact IH].
  destruct (phase_changes_new st info p Hp) as [Hne Hnew].
  destruct IH as [IH1 IH2]. simpl. rewrite Hne, Hnew, IH1, IH2. auto.
Qed.

Lemma session_announced isTty options infos :
  announced (session isTty options infos) =
  announced (snd (callbacks isTty (mkState None false) infos)).
Proof.
  unfold session, createProgressCallback.
  destruct (callbacks isTty (mkState None false) infos) as [st1 e1]. cbn [snd].
  rewrite !announced_app. unfold complete.
  destruct isTty, (started st1); simpl; rewrite ?app_nil_r; reflexivity.
Qed.

Lemma callback_newlines_placed isTty st info rest :
  (lastPhase st = None \/ started st = true) ->
  newlines_placed isTty
    (match lastPhase (fst (callback isTty st info)) with Some _ => true | None => false end)
    rest = true ->
  newlines_placed isTty
    (match lastPhase st with Some _ => true | None => false end)
    (snd (callback isTty st info) ++ rest) = true.
Proof.
  intros Hinv. unfold callback, start_once.
  destruct (phase_changes st info) as [p|]; cbn [fst snd lastPhase]; intros Hrest.
  - destruct (lastPhase st) as [q|] eqn:Hlast.
    + destruct Hinv as [Hinv|Hinv]; [discriminate|]. rewrite Hinv.
      destruct isTty; simpl; exact Hrest.
    + destruct (started st); simpl; rewrite andb_false_r; exact Hrest.
  - destruct (started st); simpl; exact Hrest.
Qed.

Lemma callbacks_newlines_placed isTty infos :
  forall st,
    (lastPhase st = None \/ started st = true) ->
    newlines_placed isTty
      (match lastPhase st with Some _ => true | None => false end)
      (snd (callbacks isTty st infos)) = true.
Proof.
  induction infos as [|info infos IH]; intros st Hinv; [reflexivity|].
  rewrite ProgressCallbackFacts.callbacks_cons. cbn [fst snd].
  apply callback_newlines_placed; [exact Hinv|].
  apply IH. right. apply ProgressCallbackFacts.callback_started.
Qed.

Lemma newlines_placed_end isTty seen effects tail :
  forallb (fun e => negb (is_newline e || is_setPhase e)) tail = true ->
  newlines_placed isTty seen effects = true ->
  newlines_placed isTty seen (effects ++ tail) = true.
Proof.
  intros Htail. revert seen.
  assert (Hplain : forall seen, newlines_placed isTty seen tail = true).
  { induction tail as [|e tail IHt]; intros seen; [reflexivity|].
    simpl in Htail. apply andb_true_iff in Htail. destruct Htail as [He Htail].
    destruct e; try discriminate; simpl; apply (IHt Htail). }
  assert (Hlen : forall n effects,
             List.length effects <= n ->
             forall seen,
               newlines_placed isTty seen effects = true ->
               newlines_placed isTty seen (effects ++ tail) = true).
  { induction n as [|n IH]; intros [|e effects'] Hn seen H;
      try apply Hplain; [simpl in Hn; lia|].
    simpl in Hn.
    destruct e; simpl in *; try (apply IH; [lia | exact H]).
    - destruct effects' as [|e' effects'']; [discriminate|].
      destruct e'; try discriminate. simpl in *.
      apply andb_true_iff in H. destruct H as [H1 H2]. rewrite H1. simpl.
      apply IH; [lia | exact H2].
    - apply andb_true_iff in H. destruct H as [H1 H2]. rewrite H1. simpl.
      apply IH; [lia | exact H2]. }
  intros seen. apply (Hlen (List.length effects) effects (le_n _)).
Qed.

End ProgressCallbackPhases.

(** X17: what the code of [createProgressCallback] writes on the stream
    (the output of the progress bar itself is not part of it): nothing when
    the stream is not a terminal; on a terminal, the code that hides the
    cursor right after the bar is created, the code that shows it as the last
    action of [complete], and in between one newline before every phase that
    is announced except the first one, each followed at once by the call of
    [bar.setPhase] for that phase. *)
Theorem progress_callback_stream_writes
  (isTty : bool) (options : ProgressCallback.Options)
  (infos : list ProgressCallback.ProgressInfo) :
  filter ProgressCallback.is_write (ProgressCallback.session isTty options infos) =
  (if isTty
   then ProgressCallback.WriteCursorHide
        :: repeat ProgressCallback.WriteNewline
             (pred (List.length
                      (ProgressCallback.announced
                         (ProgressCallback.session isTty options infos))))
        ++ [ProgressCallback.WriteCursorShow]
   else []) /\
  ProgressCallback.newlines_placed isTty false
    (ProgressCallback.session isTty options infos) = true /\
  (isTty = true ->
   exists bar middle,
     ProgressCallback.session isTty options infos =
     bar :: ProgressCallback.WriteCursorHide :: middle ++ [ProgressCallback.WriteCursorShow]).
Proof.
  split; [|split].
  - rewrite ProgressCallbackPhases.session_announced.
    unfold ProgressCallback.session, ProgressCallback.createProgressCallback.
    pose proof (ProgressCallbackPhases.callbacks_writes isTty infos
                  (ProgressCallback.mkState None false)) as Hwrites.
    destruct (ProgressCallback.callbacks isTty (ProgressCallback.mkState None false) infos)
      as [st1 e1].
    cbn [snd ProgressCallback.lastPhase] in *.
    rewrite !filter_app, Hwrites. unfold ProgressCallback.complete.
    rewrite Nat.sub_1_r.
    destruct isTty, (ProgressCallback.started st1); reflexivity.
  - pose proof (ProgressCallbackPhases.callbacks_newlines_placed isTty infos
                  (ProgressCallback.mkState None false) (or_introl eq_refl)) as Hplaced.
    unfold ProgressCallback.session, ProgressCallback.createProgressCallback.
    destruct (ProgressCallback.callbacks isTty (ProgressCallback.mkState None false) infos)
      as [st1 e1].
    cbn [snd ProgressCallback.lastPhase] in Hplaced.
    assert (Hall : ProgressCallback.newlines_placed isTty false
                     (e1 ++ ProgressCallback.complete isTty options st1) = true).
    { apply ProgressCallbackPhases.newlines_placed_end; [|exact Hplaced].
      unfold ProgressCallback.complete.
      destruct (ProgressCallback.started st1), isTty; reflexivity. }
    destruct isTty; simpl; exact Hall.
  - intros ->.
    unfold ProgressCallback.session, ProgressCallback.createProgressCallback.
    destruct (ProgressCallback.callbacks true (ProgressCallback.mkState None false) infos)
      as [st1 e1].
    unfold ProgressCallback.complete.
    eexists. exists (e1 ++ if ProgressCallback.started st1
                           then [ProgressCallback.BarStop
                                   (ProgressCallback.clearOnComplete options)]
                           else []).
    simpl. rewrite <- app_assoc. reflexivity.
Qed.

Lemma progress_callback_stream_writes_witness :
  exists bar middle,
    ProgressCallback.session true
      (ProgressCallback.mkOptions None None None)
      [ProgressCallback.mkProgressInfo (Some "scan"%string) 0 10;
       ProgressCallback.mkProgressInfo (Some "rules"%string) 0 3] =
    bar :: ProgressCallback.WriteCursorHide :: middle ++ [ProgressCallback.WriteCursorShow].
Proof.
  apply (proj2 (proj2 (progress_callback_stream_writes true
                         (ProgressCallback.mkOptions None None None)
                         [ProgressCallback.mkProgressInfo (Some "scan"%string) 0 10;
                          ProgressCallback.mkProgressInfo (Some "rules"%string) 0 3]))).
  reflexivity.
Defined.

(** X18: the phases that a use of [createProgressCallback] passes to
    [bar.setPhase] are never empty, and none is the same as the one announced
    just before it. *)
Theorem progress_callback_announces_changes_only
  (isTty : bool) (options : ProgressCallback.Options)
  (infos : list ProgressCallback.ProgressInfo) :
  ProgressCallback.no_repeat None
    (ProgressCallback.announced (ProgressCallback.session isTty options infos)) = true /\
  forallb (fun p => negb (String.eqb p ""))
    (ProgressCallback.announced (ProgressCallback.session isTty options infos)) = true.
Proof.
  rewrite ProgressCallbackPhases.session_announced.
  apply (ProgressCallbackPhases.callbacks_no_repeat isTty infos
           (ProgressCallback.mkState None false)).
Qed.

(** ** generateLabel against the five steps written on their own *)

Module FiveStepsFacts.

Lemma among_uppercase c : FiveSteps.among FiveSteps.uppercase_letters c = is_upper c.
Proof. each_char c. Qed.

Lemma among_lowercase c : FiveSteps.among FiveSteps.lowercase_letters c = is_lower c.
Proof. each_char c. Qed.

Lemma among_digits c : FiveSteps.among FiveSteps.digits c = is_digit c.
Proof. each_char c. Qed.

Lemma among_whitespace c : FiveSteps.among FiveSteps.whitespace c = is_space c.
Proof. each_char c. Qed.

Lemma lowercase_toLowerCase c : FiveSteps.lowercase c = char_toLowerCase c.
Proof. each_char c. Qed.

Lemma uppercase_toUpperCase c : FiveSteps.uppercase c = char_toUpperCase c.
Proof. each_char c. Qed.

Lemma lowercase_word s :
  forallb (FiveSteps.among FiveSteps.lowercase_letters) s = forallb is_lower s.
Proof.
  induction s as [|c s IH]; [reflexivity|].
  cbn [forallb]. rewrite among_lowercase, IH. reflexivity.
Qed.

(** An uppercase letter is the capitalized one-letter word of its lowercase
    letter. *)
Lemma letter_is_word u :
  FiveSteps.among FiveSteps.uppercase_letters u = true ->
  is_word [char_toLowerCase u] = true.
Proof. each_char u. Qed.

Lemma letter_capitalized u :
  FiveSteps.among FiveSteps.uppercase_letters u = true ->
  capitalize_first [char_toLowerCase u] = [u].
Proof. each_char u. Qed.

Lemma run_of_letters run :
  forallb (FiveSteps.among FiveSteps.uppercase_letters) run = true ->
  forallb is_word (map (fun u => [char_toLowerCase u]) run) = true /\
  flat_map capitalize_first (map (fun u => [char_toLowerCase u]) run) = run.
Proof.
  induction run as [|u run IH]; [split; reflexivity|].
  cbn [forallb map flat_map]. intros H.
  apply andb_true_iff in H. destruct H as [Hu Hrun].
  destruct (IH Hrun) as [Hwords Hcaps].
  rewrite (letter_is_word u Hu), (letter_capitalized u Hu), Hwords, Hcaps.
  split; reflexivity.
Qed.

Lemma step1 s : FiveSteps.space_before_uppercase s = space_before_uppercase s.
Proof.
  unfold FiveSteps.space_before_uppercase, space_before_uppercase.
  apply flat_map_ext. intros c. rewrite among_uppercase. reflexivity.
Qed.

Lemma step2 s : forall b, FiveSteps.space_before_digit_runs b s = space_before_digit_runs b s.
Proof.
  induction s as [|c s IH]; intros b; [reflexivity|].
  cbn [FiveSteps.space_before_digit_runs space_before_digit_runs].
  rewrite among_digits, !IH. reflexivity.
Qed.

Lemma step3 s : FiveSteps.lowercase_all s = map char_toLowerCase s.
Proof. apply map_ext, lowercase_toLowerCase. Qed.

Lemma drop_leading_trimStart s : FiveSteps.drop_leading s = trimStart s.
Proof.
  induction s as [|c s IH]; [reflexivity|].
  cbn [FiveSteps.drop_leading trimStart].
  rewrite among_whitespace, IH. reflexivity.
Qed.

(** What [trimStart] does to a string with one more character at its end. *)
Lemma trimStart_last s c :
  trimStart (s ++ [c]) =
  match trimStart s with
  | [] => if is_space c then [] else [c]
  | kept => kept ++ [c]
  end.
Proof.
  induction s as [|a s IH]; simpl; [destruct (is_space c); reflexivity|].
  destruct (is_space a); [exact IH | reflexivity].
Qed.

Lemma drop_trailing_trimEnd s : FiveSteps.drop_trailing s = trimEnd s.
Proof.
  induction s as [|c s IH]; [reflexivity|].
  cbn [FiveSteps.drop_trailing]. rewrite IH, among_whitespace.
  unfold trimEnd. cbn [rev]. rewrite trimStart_last.
  destruct (trimStart (rev s)) as [|a kept] eqn:Hkept.
  - simpl. destruct (is_space c); reflexivity.
  - rewrite rev_app_distr. change (rev [c] ++ rev (a :: kept)) with (c :: rev (a :: kept)).
    destruct (rev (a :: kept)) eqn:Hrev; [|reflexivity].
    apply (f_equal (@List.length ascii)) in Hrev.
    rewrite length_rev in Hrev. discriminate.
Qed.

Lemma step4_trim s : FiveSteps.drop_trailing (FiveSteps.drop_leading s) = trim s.
Proof. rewrite drop_leading_trimStart, drop_trailing_trimEnd. reflexivity. Qed.

Lemma step4_collapse s : forall b, FiveSteps.collapse_runs b s = collapse_spaces b s.
Proof.
  induction s as [|c s IH]; intros b; [reflexivity|].
  cbn [FiveSteps.collapse_runs collapse_spaces].
  rewrite among_whitespace, !IH. reflexivity.
Qed.

Lemma step5 s : FiveSteps.uppercase_first s = capitalize_first s.
Proof.
  destruct s as [|c s]; [reflexivity|].
  cbn [FiveSteps.uppercase_first capitalize_first].
  rewrite uppercase_toUpperCase. reflexivity.
Qed.

Lemma label_steps (name : string) : FiveSteps.label name = generateLabel_steps name.
Proof.
  unfold FiveSteps.label, FiveSteps.label_chars, generateLabel_steps. f_equal.
  rewrite step5, step4_collapse, step4_trim, step3, step2, step1. reflexivity.
Qed.

End FiveStepsFacts.

(** ** The program on names above ASCII agrees with it on ASCII names *)

Module Latin1Facts.

Lemma toLowerCase_ascii c : is_ascii c = true -> Latin1.char_toLowerCase c = char_toLowerCase c.
Proof. each_char c. Qed.

Lemma toUpperCase_ascii c :
  is_ascii c = true -> Latin1.char_toUpperCase c = Some [char_toUpperCase c].
Proof. each_char c. Qed.

Lemma whitespace_ascii c : is_ascii c = true -> Latin1.is_whitespace c = is_space c.
Proof. each_char c. Qed.

Lemma lowered_ascii c : is_ascii (char_toLowerCase c) = is_ascii c.
Proof. each_char c. Qed.

Lemma ascii_space_before_uppercase s :
  forallb is_ascii (space_before_uppercase s) = forallb is_ascii s.
Proof.
  induction s as [|c s IH]; [reflexivity|].
  unfold space_before_uppercase in *. simpl. rewrite forallb_app, IH.
  destruct (is_upper c); simpl; rewrite ?andb_true_r; reflexivity.
Qed.

Lemma ascii_space_before_digit_runs s :
  forall b, forallb is_ascii (space_before_digit_runs b s) = forallb is_ascii s.
Proof.
  induction s as [|c s IH]; intros b; [reflexivity|]. simpl.
  destruct (is_digit c); [|simpl; rewrite IH; reflexivity].
  rewrite forallb_app, IH. destruct b; simpl; rewrite ?andb_true_r; reflexivity.
Qed.

Lemma ascii_lowered s : forallb is_ascii (map char_toLowerCase s) = forallb is_ascii s.
Proof.
  induction s as [|c s IH]; [reflexivity|]. simpl. rewrite lowered_ascii, IH. reflexivity.
Qed.

Lemma trimStart_ascii s : forallb is_ascii s = true -> Latin1.trimStart s = trimStart s.
Proof.
  induction s as [|c s IH]; [reflexivity|]. simpl. intros H.
  apply andb_true_iff in H. destruct H as [Hc Hs].
  rewrite (whitespace_ascii c Hc), (IH Hs). reflexivity.
Qed.

Lemma ascii_trimStart s : forallb is_ascii s = true -> forallb is_ascii (trimStart s) = true.
Proof.
  intros H. destruct (trimStart_spaces s) as (sp & Hs & _).
  rewrite Hs, forallb_app in H. apply andb_true_iff in H. exact (proj2 H).
Qed.

Lemma trim_ascii s : forallb is_ascii s = true -> Latin1.trim s = trim s.
Proof.
  intros H. unfold Latin1.trim, Latin1.trimEnd, trim, trimEnd.
  rewrite (trimStart_ascii s H). rewrite trimStart_ascii; [reflexivity|].
  rewrite forallb_rev. apply ascii_trimStart. exact H.
Qed.

Lemma span_ascii s :
  forallb is_ascii s = true ->
  span Latin1.is_whitespace s = span is_space s /\
  forallb is_ascii (snd (span is_space s)) = true.
Proof.
  induction s as [|c s IH]; [split; reflexivity|]. simpl. intros H.
  apply andb_true_iff in H. destruct H as [Hc Hs].
  rewrite (whitespace_ascii c Hc). destruct (IH Hs) as [Heq Hrest].
  destruct (is_space c).
  - rewrite Heq. destruct (span is_space s). split; [reflexivity | exact Hrest].
  - split; [reflexivity|]. simpl. rewrite Hc, Hs. reflexivity.
Qed.

Lemma collapse_ascii s :
  forallb is_ascii s = true ->
  replace_all (ClassPlus Latin1.is_whitespace) (fun _ => [" "%char]) s =
  replace_all (ClassPlus is_space) (fun _ => [" "%char]) s.
Proof.
  induction s as [s IH] using by_length. intros H.
  destruct s as [|c s]; [reflexivity|].
  rewrite !replace_all_cons. simpl in *.
  apply andb_true_iff in H. destruct H as [Hc Hs].
  rewrite (whitespace_ascii c Hc). destruct (is_space c).
  - destruct (span_ascii s Hs) as [-> Hrest].
    pose proof (span_shorter is_space s) as Hlen.
    destruct (span is_space s) as [m rest]. simpl in *.
    rewrite IH by (lia || exact Hrest). reflexivity.
  - rewrite IH by (simpl; lia || exact Hs). reflexivity.
Qed.

Lemma first_character_ascii s :
  forallb is_ascii s = true ->
  (match exec_at (Class is_dot) s with
   | Some (m, rest) => option_map (fun u => u ++ rest) (Latin1.toUpperCase m)
   | None => Some s
   end) = Some (replace_start (Class is_dot) toUpperCase s).
Proof.
  unfold replace_start. destruct s as [|c s]; [reflexivity|]. simpl. intros H.
  apply andb_true_iff in H. destruct H as [Hc _].
  destruct (is_dot c); [|reflexivity].
  simpl. rewrite (toUpperCase_ascii c Hc). reflexivity.
Qed.

(** On a name of ASCII characters the program on names above ASCII gives the
    label of [generateLabel_chars]. *)
Lemma generateLabel_ascii s :
  forallb is_ascii s = true ->
  Latin1.generateLabel s = Some (generateLabel_chars s).
Proof.
  intros H. unfold Latin1.generateLabel, generateLabel_chars, toLowerCase.
  assert (H2 : forallb is_ascii
                 (replace_all (ClassPlus is_digit) space_then_group
                    (replace_all (Class is_upper) space_then_group s)) = true).
  { rewrite replace_all_class, replace_all_digit_runs.
    rewrite ascii_space_before_digit_runs.
    rewrite <- (ascii_space_before_uppercase s) in H. exact H. }
  set (s2 := replace_all (ClassPlus is_digit) space_then_group
               (replace_all (Class is_upper) space_then_group s)) in *.
  assert (Hmap : map Latin1.char_toLowerCase s2 = map char_toLowerCase s2).
  { apply map_ext_in. intros c Hc. apply toLowerCase_ascii.
    rewrite forallb_forall in H2. exact (H2 c Hc). }
  rewrite Hmap.
  assert (H3 : forallb is_ascii (map char_toLowerCase s2) = true)
    by (rewrite ascii_lowered; exact H2).
  rewrite (trim_ascii _ H3).
  assert (H4 : forallb is_ascii (trim (map char_toLowerCase s2)) = true)
    by (apply forallb_trim; exact H3).
  rewrite (collapse_ascii _ H4).
  apply first_character_ascii.
  rewrite replace_all_space_runs. apply forallb_collapse; [reflexivity | exact H4].
Qed.

End Latin1Facts.

(** C6, for names of ASCII characters: for every name of ASCII
    characters, [generateLabel] is the composition of the five steps, written
    on their own in [FiveSteps] with the letters, digits and whitespace
    characters listed: a space before every uppercase letter, a space before
    every run of digits, lowercase, trim and collapse whitespace runs to
    single spaces, uppercase the first character.  The program on names above
    ASCII gives the same label for such a name, and the three documented
    examples hold exactly. *)
Theorem generateLabel_is_five_step_composition (name : string) :
  is_ascii_name name = true ->
  generateLabel name = FiveSteps.label name /\
  Latin1.generateLabel (list_ascii_of_string name) =
    Some (list_ascii_of_string (FiveSteps.label name)) /\
  generateLabel "loadModules" = "Load modules" /\
  generateLabel "parseMarkdown" = "Parse markdown" /\
  generateLabel "initBoardStateGenerator" = "Init board state generator".
Proof.
  intros Hascii.
  assert (Hsteps : generateLabel name = FiveSteps.label name)
    by (rewrite FiveStepsFacts.label_steps; apply generateLabel_refines).
  split; [exact Hsteps|]. split.
  - rewrite <- Hsteps. unfold generateLabel.
    rewrite list_ascii_of_string_of_list_ascii.
    apply Latin1Facts.generateLabel_ascii. exact Hascii.
  - repeat split; vm_compute; reflexivity.
Qed.

Lemma generateLabel_is_five_step_composition_witness :
  generateLabel " step2InitHTML  x " = FiveSteps.label " step2InitHTML  x " /\
  Latin1.generateLabel (list_ascii_of_string " step2InitHTML  x ") =
    Some (list_ascii_of_string (FiveSteps.label " step2InitHTML  x ")) /\
  generateLabel "loadModules" = "Load modules" /\
  generateLabel "parseMarkdown" = "Parse markdown" /\
  generateLabel "initBoardStateGenerator" = "Init board state generator".
Proof.
  apply (generateLabel_is_five_step_composition " step2InitHTML  x ").
  reflexivity.
Defined.

(** C6, as stated for every name, fails above ASCII: in the name made
    of "a" and the capital E with acute accent (U+00C9) the capital is an
    uppercase letter, yet the program inserts no space before it: the label is
    "A" followed by the small e with acute accent (U+00E9), where the five
    steps as worded give "A", a space and the small letter. *)
Lemma generateLabel_no_space_before_accented_capital :
  Latin1.is_uppercase_letter "201"%char = true /\
  Latin1.generateLabel ["a"; "201"]%char = Some ["A"; "233"]%char /\
  Latin1.five_steps_as_worded ["a"; "201"]%char = Some ["A"; " "; "233"]%char /\
  Latin1.generateLabel ["a"; "201"]%char <> Latin1.five_steps_as_worded ["a"; "201"]%char.
Proof.
  repeat split; try (vm_compute; reflexivity).
  vm_compute. discriminate.
Qed.

(** C10: a run of consecutive uppercase letters is split into one-letter
    lowercase words: for a name made of a word of lowercase letters followed
    by uppercase letters, the label is the word with its first letter in
    uppercase, followed, for each uppercase letter of the run, by a space and
    the letter in lowercase.  So "parseHTML" gives "Parse h t m l"; and the
    empty name gives the empty label. *)
Theorem generateLabel_splits_uppercase_runs (c : ascii) (word run : list ascii) :
  forallb (FiveSteps.among FiveSteps.lowercase_letters) (c :: word) = true ->
  forallb (FiveSteps.among FiveSteps.uppercase_letters) run = true ->
  generateLabel (string_of_list_ascii ((c :: word) ++ run)) =
    string_of_list_ascii
      (FiveSteps.uppercase c :: word ++
       flat_map (fun u => [" "%char; FiveSteps.lowercase u]) run) /\
  generateLabel "parseHTML" = "Parse h t m l" /\
  generateLabel "" = "".
Proof.
  intros Hword Hrun. split; [|split; vm_compute; reflexivity].
  assert (Hfirst : is_word (c :: word) = true).
  { rewrite FiveStepsFacts.lowercase_word in Hword. unfold is_word.
    rewrite Hword. reflexivity. }
  set (letters := map (fun u => [char_toLowerCase u]) run).
  destruct (FiveStepsFacts.run_of_letters run Hrun) as [Hletters Hcaps].
  fold letters in Hletters, Hcaps.
  assert (Hname : (c :: word) ++ run = camelCase (c :: word) letters)
    by (unfold camelCase; rewrite Hcaps; reflexivity).
  rewrite Hname, generateLabel_refines. unfold generateLabel_steps. f_equal.
  rewrite list_ascii_of_string_of_list_ascii, (camelCase_steps _ _ Hfirst Hletters).
  unfold sentence, letters. simpl. rewrite FiveStepsFacts.uppercase_toUpperCase.
  f_equal. f_equal. rewrite flat_map_concat_map, map_map, <- flat_map_concat_map.
  apply flat_map_ext. intros u. rewrite FiveStepsFacts.lowercase_toLowerCase. reflexivity.
Qed.

Lemma generateLabel_splits_uppercase_runs_witness :
  generateLabel (string_of_list_ascii (list_ascii_of_string "parse" ++ list_ascii_of_string "XMLURI")) =
    string_of_list_ascii (list_ascii_of_string "Parse x m l u r i") /\
  generateLabel "parseHTML" = "Parse h t m l" /\
  generateLabel "" = "".
Proof.
  apply (generateLabel_splits_uppercase_runs "p" (list_ascii_of_string "arse")
           (list_ascii_of_string "XMLURI")).
  - reflexivity.
  - reflexivity.
Defined.
